(** * script.js: interactive behaviours of the portfolio page

    A shallow embedding of [src/script.js] and the properties of its
    event listeners.  The script is a flat list of listeners attached at
    load time to elements found by selector; the embedding keeps that
    shape:

    - JavaScript strings are sequences of UTF-16 code units;
    - the page is a tree of element handles over a store of element
      objects, queried by descendant selectors in document order;
    - every listener is a function from the browser state to an outcome,
      either a normal return or a thrown error together with the state
      reached when it was thrown. *)

From Stdlib Require Import String Ascii.
From stdpp Require Import base option list gmap.

Set Warnings "-register-all,-clear-no-such-hyp".

Local Open Scope N_scope.

(** ** Strings *)

(** A JavaScript string: its UTF-16 code units. *)
Definition jsstring : Type := list N.

(** An ASCII literal of the source as a JavaScript string. *)
Definition js (s : string) : jsstring :=
  map N_of_ascii (list_ascii_of_string s).

(** [WhiteSpace] and [LineTerminator] of ECMAScript: what [\s] matches in
    a regular expression and what [String.prototype.trim] strips. *)
Definition is_space (c : N) : bool :=
  ((9 <=? c) && (c <=? 13))
  || (c =? 32) || (c =? 160) || (c =? 5760)
  || ((8192 <=? c) && (c <=? 8202))
  || (c =? 8232) || (c =? 8233) || (c =? 8239) || (c =? 8287)
  || (c =? 12288) || (c =? 65279).

Fixpoint trimStart (s : jsstring) : jsstring :=
  match s with
  | c :: s' => if is_space c then trimStart s' else s
  | [] => []
  end.

Definition trimEnd (s : jsstring) : jsstring := rev (trimStart (rev s)).

(** [s.trim()] *)
Definition trim (s : jsstring) : jsstring := trimEnd (trimStart s).

(** ['\n'] *)
Definition NEWLINE : jsstring := [10].

(** Truthiness of a string: only the empty string is falsy. *)
Definition truthy (s : jsstring) : bool :=
  match s with [] => false | _ => true end.

(** [parts.join(sep)] *)
Fixpoint array_join (sep : jsstring) (parts : list jsstring) : jsstring :=
  match parts with
  | [] => []
  | [p] => p
  | p :: rest => p ++ sep ++ array_join sep rest
  end.

(** ** Regular expressions *)

Module Regex.

(** The fragment of the pattern language that the script uses: classes
    of code units, concatenation and [+]; alternation and [*] complete
    the algebra in which derivatives are taken. *)
Inductive regex : Type :=
| Void
| Eps
| Sym (p : N → bool)
| Cat (r1 r2 : regex)
| Alt (r1 r2 : regex)
| Star (r : regex).

(** [r+] *)
Definition Plus (r : regex) : regex := Cat r (Star r).

Fixpoint nullable (r : regex) : bool :=
  match r with
  | Void => false
  | Eps => true
  | Sym _ => false
  | Cat r1 r2 => nullable r1 && nullable r2
  | Alt r1 r2 => nullable r1 || nullable r2
  | Star _ => true
  end.

Fixpoint deriv (c : N) (r : regex) : regex :=
  match r with
  | Void => Void
  | Eps => Void
  | Sym p => if p c then Eps else Void
  | Cat r1 r2 =>
      if nullable r1 then Alt (Cat (deriv c r1) r2) (deriv c r2)
      else Cat (deriv c r1) r2
  | Alt r1 r2 => Alt (deriv c r1) (deriv c r2)
  | Star r1 => Cat (deriv c r1) (Star r1)
  end.

(** A pattern anchored at both ends, [/^r$/], tested against [s]. *)
Fixpoint test (r : regex) (s : jsstring) : bool :=
  match s with
  | [] => nullable r
  | c :: s' => test (deriv c r) s'
  end.

(** The words of a pattern, as a relation. *)
Inductive lang : regex → jsstring → Prop :=
| lang_eps : lang Eps []
| lang_sym p c : p c = true → lang (Sym p) [c]
| lang_cat r1 r2 s1 s2 : lang r1 s1 → lang r2 s2 → lang (Cat r1 r2) (s1 ++ s2)
| lang_alt_l r1 r2 s : lang r1 s → lang (Alt r1 r2) s
| lang_alt_r r1 r2 s : lang r2 s → lang (Alt r1 r2) s
| lang_star_nil r : lang (Star r) []
| lang_star_cons r s1 s2 :
    lang r s1 → lang (Star r) s2 → lang (Star r) (s1 ++ s2).

End Regex.

(** [[^\s@]]: any code unit that is neither white space nor ['@']. *)
Definition not_space_at (c : N) : bool := negb (is_space c || (c =? 64)).

(** [const emailRegex = /^[^\s@]+@[^\s@]+\.[^\s@]+$/] *)
Definition emailRegex : Regex.regex :=
  Regex.Cat (Regex.Plus (Regex.Sym not_space_at))
    (Regex.Cat (Regex.Sym (N.eqb 64))
       (Regex.Cat (Regex.Plus (Regex.Sym not_space_at))
          (Regex.Cat (Regex.Sym (N.eqb 46))
             (Regex.Plus (Regex.Sym not_space_at))))).

(** ** The page *)

(** Element objects are referred to by handle; an object keeps its
    properties whether or not it is still attached to the document. *)
Definition handle : Type := nat.
Bind Scope nat_scope with handle.

Record Element : Type := mkElement {
  tagName : jsstring;                (* local name, lower case *)
  attrs : gmap jsstring jsstring;    (* attributes other than [class] *)
  classList : list jsstring;         (* the tokens of [class], in order *)
  value : option jsstring;           (* [None]: no string [value] property *)
  defaultValue : jsstring;           (* what a form reset restores *)
  textContent : jsstring;
  offsetTop : Z;
  offsetHeight : Z
}.

Definition with_attrs (f : gmap jsstring jsstring → gmap jsstring jsstring)
    (e : Element) : Element :=
  mkElement (tagName e) (f (attrs e)) (classList e) (value e)
    (defaultValue e) (textContent e) (offsetTop e) (offsetHeight e).

Definition with_classList (f : list jsstring → list jsstring)
    (e : Element) : Element :=
  mkElement (tagName e) (attrs e) (f (classList e)) (value e)
    (defaultValue e) (textContent e) (offsetTop e) (offsetHeight e).

Definition with_value (v : option jsstring) (e : Element) : Element :=
  mkElement (tagName e) (attrs e) (classList e) v
    (defaultValue e) (textContent e) (offsetTop e) (offsetHeight e).

Definition with_textContent (t : jsstring) (e : Element) : Element :=
  mkElement (tagName e) (attrs e) (classList e) (value e)
    (defaultValue e) t (offsetTop e) (offsetHeight e).

(** The document: handles arranged as a tree, children in document
    order. *)
Inductive tree : Type :=
| Node (h : handle) (kids : list tree).

(** Calls into the browser whose only effect on this model is that they
    happened. *)
Inductive call : Type :=
| Alert (msg : jsstring)
| Warn (msg : jsstring)
| Reset (form : handle).

Record Browser : Type := mkBrowser {
  doc : tree;
  heap : handle → Element;
  storage : gmap jsstring jsstring;  (* localStorage *)
  scrollY : Z;                       (* window.scrollY, in pixels *)
  bodyOverflow : jsstring;           (* document.body.style.overflow *)
  calls : list call
}.

Inductive error : Type := TypeError | SyntaxError.

(** How a listener ends.  A thrown error does not undo what the listener
    did before it. *)
Inductive outcome : Type :=
| Return (b : Browser)
| Throw (e : error) (b : Browser).

Definition final (o : outcome) : Browser :=
  match o with Return b => b | Throw _ b => b end.

Definition throws (o : outcome) : bool :=
  match o with Return _ => false | Throw _ _ => true end.

Definition andThen (o : outcome) (k : Browser → outcome) : outcome :=
  match o with
  | Return b => k b
  | Throw e b => Throw e b
  end.

(** *** Element properties *)

Definition update (h : handle) (f : Element → Element) (b : Browser) : Browser :=
  mkBrowser (doc b)
    (λ k, if decide (k = h) then f (heap b k) else heap b k)
    (storage b) (scrollY b) (bodyOverflow b) (calls b).

Definition record (c : call) (b : Browser) : Browser :=
  mkBrowser (doc b) (heap b) (storage b) (scrollY b) (bodyOverflow b)
    (calls b ++ [c]).

Definition set_bodyOverflow (v : jsstring) (b : Browser) : Browser :=
  mkBrowser (doc b) (heap b) (storage b) (scrollY b) v (calls b).

(** [localStorage.setItem(k, v)] *)
Definition setItem (k v : jsstring) (b : Browser) : Browser :=
  mkBrowser (doc b) (heap b) (<[k := v]> (storage b)) (scrollY b)
    (bodyOverflow b) (calls b).

(** [localStorage.getItem(k)] *)
Definition getItem (k : jsstring) (b : Browser) : option jsstring :=
  storage b !! k.

(** [el.classList.contains(c)] *)
Definition contains (b : Browser) (h : handle) (c : jsstring) : bool :=
  bool_decide (c ∈ classList (heap b h)).

Definition token_add (c : jsstring) (l : list jsstring) : list jsstring :=
  if decide (c ∈ l) then l else l ++ [c].

Definition token_remove (c : jsstring) (l : list jsstring) : list jsstring :=
  filter (λ x, x ≠ c) l.

Definition token_toggle (c : jsstring) (l : list jsstring) : list jsstring :=
  if decide (c ∈ l) then token_remove c l else l ++ [c].

(** [el.classList.add(c)], [.remove(c)], [.toggle(c)] *)
Definition classList_add (h : handle) (c : jsstring) : Browser → Browser :=
  update h (with_classList (token_add c)).
Definition classList_remove (h : handle) (c : jsstring) : Browser → Browser :=
  update h (with_classList (token_remove c)).
Definition classList_toggle (h : handle) (c : jsstring) : Browser → Browser :=
  update h (with_classList (token_toggle c)).

(** [el.getAttribute(n)], [el.setAttribute(n, v)] *)
Definition getAttribute (b : Browser) (h : handle) (n : jsstring) : option jsstring :=
  attrs (heap b h) !! n.
Definition setAttribute (h : handle) (n v : jsstring) : Browser → Browser :=
  update h (with_attrs (insert n v)).

(** *** The tree *)

(** Every element of the document with its ancestors, nearest first, in
    document order. *)
Fixpoint walk (ancs : list handle) (t : tree) : list (handle * list handle) :=
  match t with
  | Node h kids => (h, ancs) :: flat_map (walk (h :: ancs)) kids
  end.

(** [document.documentElement] *)
Definition documentElement (b : Browser) : handle :=
  match doc b with Node h _ => h end.

(** Assigning [el.textContent] replaces the children of [el]. *)
Fixpoint prune (h : handle) (t : tree) : tree :=
  match t with
  | Node k kids => if decide (k = h) then Node k [] else Node k (map (prune h) kids)
  end.

Definition set_textContent (h : handle) (t : jsstring) (b : Browser) : Browser :=
  mkBrowser (prune h (doc b))
    (λ k, if decide (k = h) then with_textContent t (heap b k) else heap b k)
    (storage b) (scrollY b) (bodyOverflow b) (calls b).

(** The elements inside [f]. *)
Definition descendants (f : handle) (t : tree) : list handle :=
  map fst (filter (λ x, f ∈ snd x) (walk [] t)).

(** *** Selectors *)

(** One compound selector: a type, an id, a class and an attribute test,
    each optional.  [sel_attr = Some (n, None)] is [[n]] and
    [Some (n, Some v)] is [[n="v"]]. *)
Record compound : Type := mkCompound {
  sel_tag : option jsstring;
  sel_id : option jsstring;
  sel_class : option jsstring;
  sel_attr : option (jsstring * option jsstring)
}.

Definition matches_compound (c : compound) (e : Element) : bool :=
  match sel_tag c with Some t => bool_decide (tagName e = t) | None => true end
  && match sel_id c with
     | Some i => bool_decide (attrs e !! js "id" = Some i)
     | None => true
     end
  && match sel_class c with
     | Some k => bool_decide (k ∈ classList e)
     | None => true
     end
  && match sel_attr c with
     | Some (n, None) => bool_decide (is_Some (attrs e !! n))
     | Some (n, Some v) => bool_decide (attrs e !! n = Some v)
     | None => true
     end.

(** The compounds left of the last one, innermost first, against the
    ancestors, nearest first (descendant combinators). *)
Fixpoint matches_ancestors (look : handle → Element) (cs : list compound)
    (ancs : list handle) {struct ancs} : bool :=
  match cs with
  | [] => true
  | c :: cs' =>
      match ancs with
      | [] => false
      | a :: ancs' =>
          (matches_compound c (look a) && matches_ancestors look cs' ancs')
          || matches_ancestors look cs ancs'
      end
  end.

(** A selector is its compounds in source order. *)
Definition selector : Type := list compound.

Definition matches (look : handle → Element) (sel : selector)
    (x : handle * list handle) : bool :=
  match rev sel with
  | [] => false
  | c :: cs => matches_compound c (look (fst x)) && matches_ancestors look cs (snd x)
  end.

(** [document.querySelectorAll(sel)] and [document.querySelector(sel)] *)
Definition qsa (b : Browser) (sel : selector) : list handle :=
  map fst (filter (λ x, matches (heap b) sel x = true) (walk [] (doc b))).

Definition qs (b : Browser) (sel : selector) : option handle :=
  head (qsa b sel).

Definition by_tag (t : string) : compound := mkCompound (Some (js t)) None None None.
Definition by_id (i : string) : compound := mkCompound None (Some (js i)) None None.
Definition by_class (k : string) : compound := mkCompound None None (Some (js k)) None.

(** *** Forms *)

Definition is_form (b : Browser) (h : handle) : bool :=
  bool_decide (tagName (heap b h) = js "form").

(** The form owner of an element of the document, given with its
    ancestors.  An element with a [form] attribute belongs to the first
    element of the document that has the attribute's value as its id, if
    that element is a form, and to no form otherwise; an element without
    the attribute belongs to its nearest ancestor form. *)
Definition form_owner (b : Browser) (x : handle * list handle) : option handle :=
  match getAttribute b x.1 (js "form") with
  | Some id =>
      match qs b [mkCompound None (Some id) None None] with
      | Some f => if truthy id && is_form b f then Some f else None
      | None => None
      end
  | None => head (filter (λ a, is_form b a = true) x.2)
  end.

(** The elements that a form reset acts on. *)
Definition resettable (e : Element) : bool :=
  bool_decide (tagName e ∈ [js "input"; js "output"; js "select"; js "textarea"]).

(** The resettable elements of the document that the form [f] owns. *)
Definition controls (b : Browser) (f : handle) : list handle :=
  map fst
    (filter (λ x, form_owner b x = Some f ∧ resettable (heap b x.1) = true)
       (walk [] (doc b))).

(** [form.reset()]: every resettable element that the form owns goes
    back to its default value. *)
Definition reset_control (e : Element) : Element :=
  match value e with
  | Some _ => with_value (Some (defaultValue e)) e
  | None => e
  end.

Definition form_reset (f : handle) (b : Browser) : Browser :=
  mkBrowser (doc b)
    (λ k, if decide (k ∈ controls b f) then reset_control (heap b k)
          else heap b k)
    (storage b) (scrollY b) (bodyOverflow b) (calls b ++ [Reset f]).

(** ** The script *)

(** [nav ul], [nav ul li a], [section[id]] and the other selectors of the
    source. *)
Definition sel_nav_ul : selector := [by_tag "nav"; by_tag "ul"].
Definition sel_nav_links : selector :=
  [by_tag "nav"; by_tag "ul"; by_tag "li"; by_tag "a"].
Definition sel_sections : selector :=
  [mkCompound (Some (js "section")) None None (Some (js "id", None))].
Definition sel_modal_part (k : string) : selector :=
  [by_id "project-modal"; by_class k].

(** [nav ul li a[href="v"]] *)
Definition sel_nav_link_to (v : jsstring) : selector :=
  [by_tag "nav"; by_tag "ul"; by_tag "li";
   mkCompound (Some (js "a")) None None (Some (js "href", Some v))].

(** The constants bound at the top level of the script. *)
Record Env : Type := mkEnv {
  navToggle : option handle;
  navUL : option handle;
  sections : list handle;
  navLinks : list handle;
  contactForm : option handle;
  modal : option handle;
  modalTitle : option handle;
  modalBody : option handle;
  modalImage : option handle;
  modalClose : option handle;
  backTop : option handle;
  themeToggle : option handle;
  root : handle
}.

Definition THEME_KEY : jsstring := js "portfolio-theme".

Definition bindings (b : Browser) : Env :=
  mkEnv (qs b [by_id "nav-toggle"])
    (qs b sel_nav_ul)
    (qsa b sel_sections)
    (qsa b sel_nav_links)
    (qs b [by_id "contact-form"])
    (qs b [by_id "project-modal"])
    (qs b (sel_modal_part "modal-title"))
    (qs b (sel_modal_part "modal-body"))
    (qs b (sel_modal_part "modal-img"))
    (qs b (sel_modal_part "modal-close"))
    (qs b [by_id "back-to-top"])
    (qs b [by_id "theme-toggle"])
    (documentElement b).

(** *** Mobile nav toggle *)

Definition bool_string (x : bool) : jsstring :=
  if x then js "true" else js "false".

(** The click listener of [#nav-toggle]; [t] is the button. *)
Definition navToggle_click (env : Env) (t : handle) (b : Browser) : outcome :=
  match navUL env with
  | None => Throw TypeError b
  | Some ul =>
      let b1 := classList_toggle ul (js "open") b in
      Return (setAttribute t (js "aria-expanded")
                (bool_string (contains b1 ul (js "open"))) b1)
  end.

(** The click listener that closes the mobile nav, on every nav link. *)
Definition navLink_click (env : Env) (b : Browser) : outcome :=
  match navUL env with
  | None => Throw TypeError b
  | Some ul =>
      if contains b ul (js "open")
      then Return (classList_remove ul (js "open") b)
      else Return b
  end.

(** *** Active link highlight on scroll *)

(** Code units that end or escape a CSS string, or that CSS input
    preprocessing rewrites.  An id free of them can be spliced between
    the quotes of [a[href="#..."]] and means itself there. *)
Definition css_special (c : N) : bool :=
  (c =? 0) || (c =? 10) || (c =? 12) || (c =? 13) || (c =? 34) || (c =? 92).

Definition css_plain (s : jsstring) : bool := forallb (λ c, negb (css_special c)) s.

(** [`${x}`] of a possibly null string. *)
Definition template (x : option jsstring) : jsstring :=
  default (js "null") x.

(** [qs(`nav ul li a[href="#${id}"]`)].  For a plain id the selector text
    is the attribute test it is meant to be.  For any other id it is not:
    an unescaped quote or line break makes it ill-formed, as a rule, and
    the embedding stops with the error a browser raises then.  What a
    browser makes of a backslash, of a NUL, or of a quote whose remainder
    happens to be selector text again is not modelled; the properties
    about the lookup are stated for plain ids. *)
Definition qs_nav_link_to (b : Browser) (id : jsstring) : error + option handle :=
  if css_plain id then inr (qs b (sel_nav_link_to (js "#" ++ id)))
  else inl SyntaxError.

Definition remove_active (links : list handle) (b : Browser) : Browser :=
  foldl (λ b' l, classList_remove l (js "active") b') b links.

(** [scrollPos >= top && scrollPos < bottom] for the section [sec]. *)
Definition in_range (scrollPos : Z) (b : Browser) (sec : handle) : bool :=
  let top := offsetTop (heap b sec) in
  let bottom := (top + offsetHeight (heap b sec))%Z in
  (top <=? scrollPos)%Z && (scrollPos <? bottom)%Z.

(** The body of [for (const sec of sections)]. *)
Definition highlight_section (env : Env) (scrollPos : Z) (sec : handle)
    (b : Browser) : outcome :=
  let id := template (getAttribute b sec (js "id")) in
  match qs_nav_link_to b id with
  | inl e => Throw e b
  | inr link =>
      if in_range scrollPos b sec then
        let b1 := remove_active (navLinks env) b in
        match link with
        | Some l => Return (classList_add l (js "active") b1)
        | None => Return b1
        end
      else Return b
  end.

Fixpoint highlight_sections (env : Env) (scrollPos : Z) (secs : list handle)
    (b : Browser) : outcome :=
  match secs with
  | [] => Return b
  | sec :: rest =>
      andThen (highlight_section env scrollPos sec b)
        (highlight_sections env scrollPos rest)
  end.

Definition onScrollHighlight (env : Env) (b : Browser) : outcome :=
  let scrollPos := (scrollY b + 120)%Z in
  highlight_sections env scrollPos (sections env) b.

(** *** Contact form *)

Definition MSG_NAME : jsstring := js "Please enter your name.".
Definition MSG_EMAIL : jsstring := js "Please enter a valid email.".
Definition MSG_MESSAGE : jsstring := js "Please add a message.".

(** ['Message sent successfully! Thank you 😊']; the last two code units
    are the surrogate pair of U+1F60A. *)
Definition MSG_SUCCESS : jsstring :=
  js "Message sent successfully! Thank you " ++ [55357; 56842].

Definition MSG_MISSING_FEEDBACK : jsstring :=
  js "Missing #form-feedback element for showing messages.".

(** [qs(sel).value.trim()] *)
Definition trimmed_value (b : Browser) (sel : selector) : option jsstring :=
  match qs b sel with
  | None => None
  | Some h => trim <$> value (heap b h)
  end.

(** The three pushes onto [errors]. *)
Definition validate (name email message : jsstring) : list jsstring :=
  (if negb (truthy name) then [MSG_NAME] else [])
  ++ (if negb (truthy email) || negb (Regex.test emailRegex email)
      then [MSG_EMAIL] else [])
  ++ (if negb (truthy message) then [MSG_MESSAGE] else []).

(** The submit listener of [#contact-form]; [form] is the form.  Its
    first statement, [e.preventDefault()], acts on the event only. *)
Definition contactForm_submit (form : handle) (b : Browser) : outcome :=
  match trimmed_value b [by_id "name"] with
  | None => Throw TypeError b
  | Some name =>
  match trimmed_value b [by_id "email"] with
  | None => Throw TypeError b
  | Some email =>
  match trimmed_value b [by_id "message"] with
  | None => Throw TypeError b
  | Some message =>
      let errors := validate name email message in
      let feedback := qs b [by_id "form-feedback"] in
      let b0 :=
        match feedback with
        | None => record (Warn MSG_MISSING_FEEDBACK) b
        | Some _ => b
        end in
      if (0 <? length errors)%nat then
        match feedback with
        | Some f =>
            Return (classList_add f (js "error")
                      (classList_remove f (js "success")
                         (set_textContent f (array_join (js " ") errors) b0)))
        | None => Return (record (Alert (array_join NEWLINE errors)) b0)
        end
      else
        let b1 :=
          match feedback with
          | Some f =>
              classList_add f (js "success")
                (classList_remove f (js "error")
                   (set_textContent f MSG_SUCCESS b0))
          | None => record (Alert MSG_SUCCESS) b0
          end in
        Return (form_reset form b1)
  end end end.

(** *** Project modal *)

(** The click listener of the close button. *)
Definition modalClose_click (env : Env) (b : Browser) : outcome :=
  match modal env with
  | None => Throw TypeError b
  | Some m => Return (set_bodyOverflow [] (classList_remove m (js "open") b))
  end.

(** The click listener of the modal itself; [target] is [e.target]. *)
Definition modal_click (m target : handle) (b : Browser) : outcome :=
  if decide (target = m)
  then Return (set_bodyOverflow [] (classList_remove m (js "open") b))
  else Return b.

(** The keydown listener of the document. *)
Definition document_keydown (env : Env) (key : jsstring) (b : Browser) : outcome :=
  if decide (key = js "Escape") then
    match modal env with
    | Some m =>
        if contains b m (js "open")
        then Return (set_bodyOverflow [] (classList_remove m (js "open") b))
        else Return b
    | None => Return b
    end
  else Return b.

(** *** Back to top *)

(** The scroll listener installed when [#back-to-top] exists. *)
Definition backTop_scroll (bt : handle) (b : Browser) : outcome :=
  if (400 <? scrollY b)%Z
  then Return (classList_add bt (js "visible") b)
  else Return (classList_remove bt (js "visible") b).

(** *** Theme *)

Definition applyTheme (env : Env) (theme : jsstring) (b : Browser) : Browser :=
  if decide (theme = js "dark") then
    let b1 := classList_add (root env) (js "dark-theme") b in
    match themeToggle env with
    | Some t => setAttribute t (js "aria-pressed") (js "true") b1
    | None => b1
    end
  else
    let b1 := classList_remove (root env) (js "dark-theme") b in
    match themeToggle env with
    | Some t => setAttribute t (js "aria-pressed") (js "false") b1
    | None => b1
    end.

(** [localStorage.getItem(THEME_KEY) || 'light'] *)
Definition saved (b : Browser) : jsstring :=
  match getItem THEME_KEY b with
  | Some s => if truthy s then s else js "light"
  | None => js "light"
  end.

(** The click listener of [#theme-toggle]. *)
Definition themeToggle_click (env : Env) (b : Browser) : outcome :=
  let cur := if contains b (root env) (js "dark-theme") then js "dark" else js "light" in
  let next := if decide (cur = js "dark") then js "light" else js "dark" in
  Return (setItem THEME_KEY next (applyTheme env next b)).

(** *** Running the script *)

(** The top level of the script: bind the constants, apply the saved
    theme.  Installing a listener changes nothing that the state records;
    which listeners exist is read off the bindings. *)
Definition load (b : Browser) : Env * Browser :=
  let env := bindings b in
  (env, applyTheme env (saved b) b).

(** An event names the listeners of one registration, not all that a user
    action sets off: [ModalClick target] is the click listener of the
    modal, run for a click on [target], which is the modal or an element
    inside it; [NavLinkClick a] is the nav-closing listener of the link
    [a]; [ModalCloseClick] is the listener of the close button. *)
Inductive event : Type :=
| NavToggleClick
| NavLinkClick (a : handle)
| WindowScroll
| WindowLoad
| FormSubmit
| ModalCloseClick
| ModalClick (target : handle)
| ThemeToggleClick
| KeyDown (key : jsstring).

(** The listeners that the script installed for an event, in the order it
    installed them.  The script has four more listeners, which are not
    among these events: the smooth scroll of a nav link, the opening of
    the modal from a project card and the scroll to the top are not
    embedded; the pass that marks images as lazily loaded is
    [document_DOMContentLoaded] below. *)
Definition listeners (env : Env) (ev : event) : list (Browser → outcome) :=
  match ev with
  | NavToggleClick =>
      match navToggle env with Some t => [navToggle_click env t] | None => [] end
  | NavLinkClick a =>
      if decide (a ∈ navLinks env) then [navLink_click env] else []
  | WindowScroll =>
      onScrollHighlight env ::
      match backTop env with Some bt => [backTop_scroll bt] | None => [] end
  | WindowLoad => [onScrollHighlight env]
  | FormSubmit =>
      match contactForm env with Some f => [contactForm_submit f] | None => [] end
  | ModalCloseClick =>
      match modalClose env with Some _ => [modalClose_click env] | None => [] end
  | ModalClick target =>
      match modal env with Some m => [modal_click m target] | None => [] end
  | ThemeToggleClick =>
      match themeToggle env with Some _ => [themeToggle_click env] | None => [] end
  | KeyDown key => [document_keydown env key]
  end.

(** Dispatch: every listener runs, also after an earlier one threw; the
    errors are reported and the state carries on. *)
Fixpoint run (ls : list (Browser → outcome)) (b : Browser) : Browser * list error :=
  match ls with
  | [] => (b, [])
  | l :: rest =>
      match l b with
      | Return b' => run rest b'
      | Throw e b' => let '(b'', es) := run rest b' in (b'', e :: es)
      end
  end.

Definition fire (env : Env) (ev : event) (b : Browser) : Browser * list error :=
  run (listeners env ev) b.

(** ** Sample pages *)

Local Open Scope string_scope.

Definition element (tag : string) (atts : list (string * string))
    (classes : list string) (val : option jsstring) (top height : Z) : Element :=
  mkElement (js tag)
    (list_to_map (map (λ x, (js x.1, js x.2)) atts))
    (map js classes) val [] [] top height.

Definition plain (tag : string) (atts : list (string * string)) : Element :=
  element tag atts [] None 0 0.

(** A page with every element that the script looks for: two nav links,
    two sections of 600 and 800 pixels, the contact form with its
    feedback paragraph, the modal, the back-to-top link and the theme
    button.  Nothing is stored, the window is at the top. *)
Definition portfolio_doc : tree :=
  Node 0 [Node 1
    [Node 2 [Node 3 [Node 4 [Node 5 []]; Node 6 [Node 7 []]]];
     Node 8 [];
     Node 9 []; Node 10 [];
     Node 11 [Node 12 []; Node 13 []; Node 14 []; Node 15 []];
     Node 16 [Node 17 []];
     Node 18 []; Node 19 []]].

Definition portfolio_heap (h : handle) : Element :=
  match h with
  | 0 => plain "html" []
  | 1 => plain "body" []
  | 2 => plain "nav" []
  | 3 => plain "ul" []
  | 4 => plain "li" []
  | 5 => plain "a" [("href", "#home")]
  | 6 => plain "li" []
  | 7 => plain "a" [("href", "#about")]
  | 8 => plain "button" [("id", "nav-toggle")]
  | 9 => element "section" [("id", "home")] [] None 0 600
  | 10 => element "section" [("id", "about")] [] None 600 800
  | 11 => plain "form" [("id", "contact-form")]
  | 12 => element "input" [("id", "name")] [] (Some []) 0 0
  | 13 => element "input" [("id", "email")] [] (Some []) 0 0
  | 14 => element "textarea" [("id", "message")] [] (Some []) 0 0
  | 15 => plain "p" [("id", "form-feedback")]
  | 16 => plain "div" [("id", "project-modal")]
  | 17 => element "button" [] ["modal-close"] None 0 0
  | 18 => plain "a" [("id", "back-to-top")]
  | 19 => plain "button" [("id", "theme-toggle")]
  | _ => plain "span" []
  end%nat.

Definition portfolio : Browser :=
  mkBrowser portfolio_doc portfolio_heap ∅ 0 [] [].

(** The visitor has typed into the three fields of the contact form. *)
Definition typed (name email message : string) (b : Browser) : Browser :=
  update 12 (with_value (Some (js name)))
    (update 13 (with_value (Some (js email)))
       (update 14 (with_value (Some (js message))) b)).

(** The window has been scrolled to [y]. *)
Definition scrolled (y : Z) (b : Browser) : Browser :=
  mkBrowser (doc b) (heap b) (storage b) y (bodyOverflow b) (calls b).

(** The same page without the feedback paragraph. *)
Definition without_feedback (b : Browser) : Browser :=
  mkBrowser
    (Node 0 [Node 1
      [Node 2 [Node 3 [Node 4 [Node 5 []]; Node 6 [Node 7 []]]];
       Node 8 [];
       Node 9 []; Node 10 [];
       Node 11 [Node 12 []; Node 13 []; Node 14 []];
       Node 16 [Node 17 []];
       Node 18 []; Node 19 []]])
    (heap b) (storage b) (scrollY b) (bodyOverflow b) (calls b).

(** A page that has the [#nav-toggle] button but no list inside a
    [nav]. *)
Definition page_without_nav_list : Browser :=
  mkBrowser (Node 0 [Node 1 [Node 8 []]]) portfolio_heap ∅ 0 [] [].

Local Close Scope string_scope.

(** ** Vocabulary of the properties *)

(** The strings that [emailRegex] accepts, in words: a local part, ['@'],
    a domain, ['.'] and a last label, the three parts non-empty and free
    of white space and of ['@']. *)
Definition email_shape (s : jsstring) : Prop :=
  ∃ loc dom tld,
    s = loc ++ [64] ++ dom ++ [46] ++ tld
    ∧ loc ≠ [] ∧ dom ≠ [] ∧ tld ≠ []
    ∧ Forall (λ c, not_space_at c = true) (loc ++ dom ++ tld).

(** A listener that only changes the class [k] of elements. *)
Definition frames_class (k : jsstring) (b b' : Browser) : Prop :=
  scrollY b' = scrollY b
  ∧ storage b' = storage b
  ∧ ∀ h c, c ≠ k → contains b' h c = contains b h c.

(** Class changes move nothing and rename nothing. *)
Definition same_layout (b b' : Browser) : Prop :=
  ∀ h, attrs (heap b' h) = attrs (heap b h)
       ∧ offsetTop (heap b' h) = offsetTop (heap b h)
       ∧ offsetHeight (heap b' h) = offsetHeight (heap b h).

(** The section id as the selector of its nav link spells it. *)
Definition section_id (b : Browser) (sec : handle) : jsstring :=
  template (getAttribute b sec (js "id")).

(** What the loop does for the section in range: clear [active] on every
    nav link, then set it on the link found for the section. *)
Definition activate (env : Env) (sec : handle) (b : Browser) : Browser :=
  match qs b (sel_nav_link_to (js "#" ++ section_id b sec)) with
  | Some l => classList_add l (js "active") (remove_active (navLinks env) b)
  | None => remove_active (navLinks env) b
  end.

(** The part of the state that the theme toggle is about: whether the root
    has the class [dark-theme], and what is stored under the key. *)
Definition theme_state (env : Env) (b : Browser) : bool * option jsstring :=
  (contains b (root env) (js "dark-theme"), getItem THEME_KEY b).

Definition theme_name (dark : bool) : jsstring :=
  if dark then js "dark" else js "light".

(** The three fields exist and their trimmed values are [name], [email]
    and [message]. *)
Definition submitted (b : Browser) (name email message : jsstring) : Prop :=
  trimmed_value b [by_id "name"] = Some name
  ∧ trimmed_value b [by_id "email"] = Some email
  ∧ trimmed_value b [by_id "message"] = Some message.

(** No form was reset between [b] and [b']. *)
Definition no_reset (b b' : Browser) : Prop :=
  (∀ h, value (heap b' h) = value (heap b h))
  ∧ ∀ f, Reset f ∈ calls b' → Reset f ∈ calls b.

(** The state after the error branch of the listener. *)
Definition error_feedback (errors : list jsstring) (b : Browser) : Browser :=
  match qs b [by_id "form-feedback"] with
  | Some f =>
      classList_add f (js "error")
        (classList_remove f (js "success")
           (set_textContent f (array_join (js " ") errors) b))
  | None =>
      record (Alert (array_join NEWLINE errors))
        (record (Warn MSG_MISSING_FEEDBACK) b)
  end.

(** The element that [sel] finds is a control that the form owns, and it
    is not inside the feedback element. *)
Definition form_field (form feedback : handle) (b : Browser) (sel : selector) : Prop :=
  ∃ h, qs b sel = Some h
    ∧ h ∈ controls b form
    ∧ (h ∉ descendants feedback (doc b)).

(** ** The lazy-loading pass *)

(** [el.hasAttribute(n)] *)
Definition hasAttribute (b : Browser) (h : handle) (n : jsstring) : bool :=
  bool_decide (is_Some (attrs (heap b h) !! n)).

(** The body of [qsa('img').forEach(img => ...)]. *)
Definition lazy_image (img : handle) (b : Browser) : Browser :=
  if hasAttribute b img (js "loading") then b
  else setAttribute img (js "loading") (js "lazy") b.

(** The [DOMContentLoaded] listener of the document. *)
Definition document_DOMContentLoaded (b : Browser) : outcome :=
  Return (foldl (λ b' img, lazy_image img b') b (qsa b [by_tag "img"])).

(** The sample page with its second section moved up, so that the two
    sections overlap between 300 and 600 pixels. *)
Definition overlapping : Browser :=
  update 10
    (λ e, mkElement (tagName e) (attrs e) (classList e) (value e)
            (defaultValue e) (textContent e) 300 (offsetHeight e))
    portfolio.

(** The sample page with a name field that the markup fills in. *)
Definition prefilled : Browser :=
  update 12
    (λ e, mkElement (tagName e) (attrs e) (classList e) (value e)
            (js "Your name") (textContent e) (offsetTop e) (offsetHeight e))
    portfolio.

(** An id that holds a double quote: a, the quote, b. *)
Definition quoted_id : jsstring := js "a" ++ [34] ++ js "b".

(** The sample page with that id on its first section, and the first nav
    link pointing to it. *)
Definition quoted : Browser :=
  setAttribute 9 (js "id") quoted_id
    (setAttribute 5 (js "href") (js "#" ++ quoted_id) portfolio).

(** The sample page with two more inputs: one after the form, tied to it
    by a [form] attribute, and one inside the form that a [form] attribute
    gives to another form, which the page does not have. *)
Definition tied : Browser :=
  mkBrowser
    (Node 0 [Node 1
      [Node 2 [Node 3 [Node 4 [Node 5 []]; Node 6 [Node 7 []]]];
       Node 8 [];
       Node 9 []; Node 10 [];
       Node 11 [Node 12 []; Node 13 []; Node 14 []; Node 21 []; Node 15 []];
       Node 20 [];
       Node 16 [Node 17 []];
       Node 18 []; Node 19 []]])
    (λ h, if decide (h = 20%nat) then
            mkElement (js "input") {[ js "form" := js "contact-form" ]} []
              (Some (js "zzz")) [] [] 0 0
          else if decide (h = 21%nat) then
            mkElement (js "input") {[ js "form" := js "elsewhere" ]} []
              (Some (js "kept")) [] [] 0 0
          else portfolio_heap h)
    ∅ 0 [] [].

(** ** More vocabulary *)

(** The two states differ by the classes of their elements at most. *)
Definition only_classes (b b' : Browser) : Prop :=
  doc b' = doc b ∧ storage b' = storage b ∧ scrollY b' = scrollY b
  ∧ bodyOverflow b' = bodyOverflow b ∧ calls b' = calls b
  ∧ ∀ h, tagName (heap b' h) = tagName (heap b h)
         ∧ attrs (heap b' h) = attrs (heap b h)
         ∧ value (heap b' h) = value (heap b h)
         ∧ defaultValue (heap b' h) = defaultValue (heap b h)
         ∧ textContent (heap b' h) = textContent (heap b h)
         ∧ offsetTop (heap b' h) = offsetTop (heap b h)
         ∧ offsetHeight (heap b' h) = offsetHeight (heap b h).

(** A selector that tests no class. *)
Definition classless (sel : selector) : Prop :=
  ∀ c, c ∈ sel → sel_class c = None.

(** Every code unit of [s] is white space. *)
Definition all_space (s : jsstring) : bool := forallb is_space s.

(** * Properties *)

(** ** The embedding on small inputs *)

Example trim_both_ends : trim (js "  a b  ") = js "a b".
Proof. reflexivity. Qed.

Example trim_no_break_space : trim [160; 97; 8233] = [97].
Proof. reflexivity. Qed.

Example array_join_two :
  array_join (js " ") [MSG_NAME; MSG_EMAIL]
  = js "Please enter your name. Please enter a valid email.".
Proof. reflexivity. Qed.

Example emailRegex_accepts : Regex.test emailRegex (js "a.b@c.d.e") = true.
Proof. reflexivity. Qed.

Example emailRegex_wants_a_dot : Regex.test emailRegex (js "a@b") = false.
Proof. reflexivity. Qed.

Example emailRegex_wants_one_at : Regex.test emailRegex (js "a@@b.c") = false.
Proof. reflexivity. Qed.

Example validate_all_empty : validate [] [] [] = [MSG_NAME; MSG_EMAIL; MSG_MESSAGE].
Proof. reflexivity. Qed.

Local Open Scope nat_scope.

Example portfolio_bindings :
  bindings portfolio
  = mkEnv (Some 8) (Some 3) [9; 10] [5; 7] (Some 11) (Some 16) None None None
      (Some 17) (Some 18) (Some 19) 0%nat.
Proof. by vm_compute. Qed.

Example nav_toggle_opens_and_closes :
  let env := bindings portfolio in
  let b1 := final (navToggle_click env 8 portfolio) in
  let b2 := final (navToggle_click env 8 b1) in
  contains b1 3 (js "open") = true
  ∧ getAttribute b1 8 (js "aria-expanded") = Some (js "true")
  ∧ contains b2 3 (js "open") = false
  ∧ getAttribute b2 8 (js "aria-expanded") = Some (js "false").
Proof. by vm_compute. Qed.

Example escape_closes_the_modal :
  let env := bindings portfolio in
  let opened := classList_add 16 (js "open") portfolio in
  contains (fire env (KeyDown (js "Escape")) opened).1 16 (js "open") = false
  ∧ contains (fire env (KeyDown (js "Enter")) opened).1 16 (js "open") = true.
Proof. by vm_compute. Qed.

Local Open Scope N_scope.

(** ** Tokens, classes and element properties *)

Lemma elem_of_token_add (c x : jsstring) (l : list jsstring) :
  x ∈ token_add c l ↔ x = c ∨ x ∈ l.
Proof.
  unfold token_add. case_decide.
  - split; [by right | intros [-> | ?]; done].
  - rewrite elem_of_app, list_elem_of_singleton. tauto.
Qed.

Lemma elem_of_token_remove (c x : jsstring) (l : list jsstring) :
  x ∈ token_remove c l ↔ x ≠ c ∧ x ∈ l.
Proof. unfold token_remove. by rewrite list_elem_of_filter. Qed.

Lemma heap_update_eq h f b : heap (update h f b) h = f (heap b h).
Proof. simpl. by rewrite decide_True. Qed.

Lemma heap_update_ne h k f b : k ≠ h → heap (update h f b) k = heap b k.
Proof. intros. simpl. by rewrite decide_False. Qed.

Lemma contains_true b h c : contains b h c = true ↔ c ∈ classList (heap b h).
Proof. unfold contains. apply bool_decide_eq_true. Qed.

Lemma contains_false b h c : contains b h c = false ↔ c ∉ classList (heap b h).
Proof. unfold contains. apply bool_decide_eq_false. Qed.

Lemma contains_classList_add b h c k x :
  contains (classList_add h c b) k x = true
  ↔ (k = h ∧ x = c) ∨ contains b k x = true.
Proof.
  rewrite !contains_true. unfold classList_add.
  destruct (decide (k = h)) as [->|Hne].
  - rewrite heap_update_eq. simpl. rewrite elem_of_token_add. naive_solver.
  - rewrite heap_update_ne by done. naive_solver.
Qed.

Lemma contains_classList_remove b h c k x :
  contains (classList_remove h c b) k x = true
  ↔ ¬ (k = h ∧ x = c) ∧ contains b k x = true.
Proof.
  rewrite !contains_true. unfold classList_remove.
  destruct (decide (k = h)) as [->|Hne].
  - rewrite heap_update_eq. simpl. rewrite elem_of_token_remove. naive_solver.
  - rewrite heap_update_ne by done. naive_solver.
Qed.

Lemma contains_setAttribute b h n v k x :
  contains (setAttribute h n v b) k x = contains b k x.
Proof.
  unfold contains, setAttribute.
  destruct (decide (k = h)) as [->|Hne].
  - by rewrite heap_update_eq.
  - by rewrite heap_update_ne.
Qed.

(** Two booleans that are true together are equal. *)
Lemma bool_eq_iff (x y : bool) : (x = true ↔ y = true) → x = y.
Proof. destruct x, y; intuition congruence. Qed.

(** A literal of the source differs from another one. *)
Ltac literals := vm_compute; congruence.

(** ** The email pattern *)

Module RegexFacts.
Import Regex.

Lemma lang_cat_inv r1 r2 s :
  lang (Cat r1 r2) s ↔ ∃ s1 s2, s = s1 ++ s2 ∧ lang r1 s1 ∧ lang r2 s2.
Proof.
  split.
  - inversion 1; subst. by eexists _, _.
  - intros (s1 & s2 & -> & H1 & H2). by constructor.
Qed.

Lemma lang_sym_inv p s : lang (Sym p) s ↔ ∃ c, s = [c] ∧ p c = true.
Proof.
  split.
  - inversion 1; subst. by eexists.
  - intros (c & -> & Hc). by constructor.
Qed.

Lemma nullable_lang r : nullable r = true ↔ lang r [].
Proof.
  split.
  - induction r as [| |p|r1 IH1 r2 IH2|r1 IH1 r2 IH2|r IH]; simpl; try done.
    + intros _. constructor.
    + intros [H1 H2]%andb_true_iff.
      change (@nil N) with (@nil N ++ []). constructor; auto.
    + intros [H1|H2]%orb_true_iff; [apply lang_alt_l | apply lang_alt_r]; auto.
    + intros _. constructor.
  - intros H. remember [] as s eqn:Hs.
    induction H as [|p c Hc|r1 r2 s1 s2 H1 IH1 H2 IH2|r1 r2 s H IH|r1 r2 s H IH
                    |r|r s1 s2 H1 IH1 H2 IH2]; simpl; try done.
    + apply app_eq_nil in Hs as [-> ->]. by rewrite IH1, IH2.
    + by rewrite IH.
    + rewrite IH by done. apply orb_true_r.
Qed.

Lemma deriv_sound c r : ∀ s, lang (deriv c r) s → lang r (c :: s).
Proof.
  induction r as [| |p|r1 IH1 r2 IH2|r1 IH1 r2 IH2|r IH]; simpl; intros s H.
  - inversion H.
  - inversion H.
  - destruct (p c) eqn:Hc; inversion H; subst. by constructor.
  - assert (∀ w, lang (Cat (deriv c r1) r2) w → lang (Cat r1 r2) (c :: w)) as Hcat.
    { intros w (s1 & s2 & -> & H1 & H2)%lang_cat_inv.
      change (c :: s1 ++ s2) with ((c :: s1) ++ s2). constructor; auto. }
    destruct (nullable r1) eqn:Hn; [|by apply Hcat].
    inversion H; subst; [by apply Hcat|].
    change (c :: s) with ([] ++ c :: s). constructor; [|auto].
    by apply nullable_lang.
  - inversion H; subst; [apply lang_alt_l | apply lang_alt_r]; auto.
  - apply lang_cat_inv in H as (s1 & s2 & -> & H1 & H2).
    change (c :: s1 ++ s2) with ((c :: s1) ++ s2). constructor; auto.
Qed.

Lemma deriv_complete c r w : lang r w → ∀ s, w = c :: s → lang (deriv c r) s.
Proof.
  induction 1 as [|p c' Hc|r1 r2 s1 s2 H1 IH1 H2 IH2|r1 r2 s' H IH|r1 r2 s' H IH
                  |r|r s1 s2 H1 IH1 H2 IH2]; intros s Hw; simpl.
  - done.
  - injection Hw as -> <-. rewrite Hc. constructor.
  - destruct s1 as [|c1 s1].
    + simpl in Hw. subst s2.
      assert (nullable r1 = true) as -> by by apply nullable_lang.
      apply lang_alt_r. by apply IH2.
    + injection Hw as -> <-.
      assert (lang (Cat (deriv c r1) r2) (s1 ++ s2)) as Hcat.
      { constructor; [by apply IH1 | done]. }
      destruct (nullable r1); [by apply lang_alt_l | done].
  - apply lang_alt_l. by apply IH.
  - apply lang_alt_r. by apply IH.
  - done.
  - destruct s1 as [|c1 s1].
    + simpl in Hw. by apply IH2.
    + injection Hw as -> <-. constructor; [by apply IH1 | done].
Qed.

(** The matcher decides the words of the pattern. *)
Lemma test_lang r s : test r s = true ↔ lang r s.
Proof.
  revert r. induction s as [|c s IH]; intros r; simpl.
  - apply nullable_lang.
  - rewrite IH. split; [apply deriv_sound|].
    intros H. by eapply deriv_complete.
Qed.

Lemma lang_star_sym p s : lang (Star (Sym p)) s ↔ Forall (λ c, p c = true) s.
Proof.
  split.
  - intros H. remember (Star (Sym p)) as r eqn:Hr.
    induction H as [|? ? ?|? ? ? ? ? ? ? ?|? ? ? ? ?|? ? ? ? ?
                    |r'|r' s1 s2 H1 IH1 H2 IH2]; try done.
    injection Hr as ->. apply lang_sym_inv in H1 as (c & -> & Hc).
    constructor; [done | by apply IH2].
  - induction 1 as [|c s Hc Hs IH]; [constructor|].
    change (c :: s) with ([c] ++ s). constructor; [by constructor | done].
Qed.

Lemma lang_plus_sym p s :
  lang (Plus (Sym p)) s ↔ s ≠ [] ∧ Forall (λ c, p c = true) s.
Proof.
  unfold Plus. rewrite lang_cat_inv. split.
  - intros (s1 & s2 & -> & (c & -> & Hc)%lang_sym_inv & H2%lang_star_sym).
    split; [done | by constructor].
  - intros [Hne Hall]. destruct Hall as [|c s Hc Hs]; [done|].
    exists [c], s. repeat split; [by constructor | by apply lang_star_sym].
Qed.

End RegexFacts.

Lemma emailRegex_shape s : Regex.test emailRegex s = true ↔ email_shape s.
Proof.
  rewrite RegexFacts.test_lang. unfold emailRegex, email_shape.
  rewrite !RegexFacts.lang_cat_inv. split.
  - intros (loc & s1 & -> & Hloc%RegexFacts.lang_plus_sym & Hrest).
    apply RegexFacts.lang_cat_inv in Hrest
      as (at_ & s2 & -> & (c & -> & Hat%N.eqb_eq)%RegexFacts.lang_sym_inv & Hrest).
    apply RegexFacts.lang_cat_inv in Hrest
      as (dom & s3 & -> & Hdom%RegexFacts.lang_plus_sym & Hrest).
    apply RegexFacts.lang_cat_inv in Hrest
      as (dot & tld & -> & (d & -> & Hdot%N.eqb_eq)%RegexFacts.lang_sym_inv
          & Htld%RegexFacts.lang_plus_sym).
    subst c d. exists loc, dom, tld.
    destruct Hloc as [? ?], Hdom as [? ?], Htld as [? ?].
    repeat split; try done. rewrite !Forall_app. tauto.
  - intros (loc & dom & tld & -> & Hl & Hd & Ht & Hall).
    rewrite !Forall_app in Hall. destruct Hall as (Al & Ad & At).
    exists loc, ([64] ++ dom ++ [46] ++ tld).
    split; [done|]. split; [by apply RegexFacts.lang_plus_sym|].
    apply RegexFacts.lang_cat_inv. exists [64], (dom ++ [46] ++ tld).
    split; [done|]. split; [by apply RegexFacts.lang_sym_inv; exists 64|].
    apply RegexFacts.lang_cat_inv. exists dom, ([46] ++ tld).
    split; [done|]. split; [by apply RegexFacts.lang_plus_sym|].
    apply RegexFacts.lang_cat_inv. exists [46], tld.
    split; [done|]. split; [by apply RegexFacts.lang_sym_inv; exists 46|].
    by apply RegexFacts.lang_plus_sym.
Qed.

(** ** The scroll listeners *)

Lemma frames_class_refl k b : frames_class k b b.
Proof. by repeat split. Qed.

Lemma frames_class_trans k b1 b2 b3 :
  frames_class k b1 b2 → frames_class k b2 b3 → frames_class k b1 b3.
Proof.
  intros (Hy1 & Hs1 & Hc1) (Hy2 & Hs2 & Hc2). repeat split; [congruence..|].
  intros h c Hc. rewrite Hc2, Hc1; done.
Qed.

Lemma frames_classList_add k h b : frames_class k b (classList_add h k b).
Proof.
  repeat split. intros h' c Hc. apply bool_eq_iff.
  rewrite contains_classList_add. tauto.
Qed.

Lemma frames_classList_remove k h b : frames_class k b (classList_remove h k b).
Proof.
  repeat split. intros h' c Hc. apply bool_eq_iff.
  rewrite contains_classList_remove. tauto.
Qed.

Lemma frames_remove_active links b :
  frames_class (js "active") b (remove_active links b).
Proof.
  unfold remove_active. revert b.
  induction links as [|l links IH]; intros b; simpl.
  - apply frames_class_refl.
  - eapply frames_class_trans; [apply frames_classList_remove | apply IH].
Qed.

Lemma frames_highlight_section env pos sec b :
  frames_class (js "active") b (final (highlight_section env pos sec b)).
Proof.
  unfold highlight_section.
  destruct (qs_nav_link_to _ _) as [e|[l|]]; simpl;
    try apply frames_class_refl;
    destruct (in_range _ _ _); simpl; try apply frames_class_refl.
  - eapply frames_class_trans;
      [apply frames_remove_active | apply frames_classList_add].
  - apply frames_remove_active.
Qed.

Lemma frames_highlight_sections env pos secs b :
  frames_class (js "active") b (final (highlight_sections env pos secs b)).
Proof.
  revert b. induction secs as [|sec secs IH]; intros b; simpl.
  - apply frames_class_refl.
  - pose proof (frames_highlight_section env pos sec b) as Hsec.
    destruct (highlight_section env pos sec b) as [b1|e b1]; simpl in *.
    + eapply frames_class_trans; [exact Hsec | apply IH].
    + exact Hsec.
Qed.

Lemma frames_onScrollHighlight env b :
  frames_class (js "active") b (final (onScrollHighlight env b)).
Proof. apply frames_highlight_sections. Qed.

Lemma backTop_scroll_visible bt b :
  contains (final (backTop_scroll bt b)) bt (js "visible") = true
  ↔ (400 < scrollY b)%Z.
Proof.
  unfold backTop_scroll. destruct (Z.ltb_spec 400 (scrollY b)); simpl.
  - rewrite contains_classList_add. intuition.
  - rewrite contains_classList_remove. intuition lia.
Qed.

(** C5: after the scroll listeners have run, the back-to-top control has the
    class [visible] exactly when the window is scrolled by more than 400
    pixels; at 400 pixels or less the class is gone. *)
Theorem back_to_top_visible_iff env b bt :
  backTop env = Some bt →
  contains (fire env WindowScroll b).1 bt (js "visible") = true
  ↔ (400 < scrollY b)%Z.
Proof.
  intros Hbt. unfold fire. simpl. rewrite Hbt.
  destruct (frames_onScrollHighlight env b) as (Hy & _ & _).
  assert (∀ b1, run [backTop_scroll bt] b1 = (final (backTop_scroll bt b1), []))
    as Hrun.
  { intros b1. simpl. unfold backTop_scroll. by destruct (_ <? _)%Z. }
  destruct (onScrollHighlight env b) as [b1|e b1]; simpl in Hy;
    rewrite Hrun; simpl; rewrite backTop_scroll_visible; by rewrite Hy.
Qed.

(** ** Theme *)

Lemma contains_applyTheme env theme b :
  contains (applyTheme env theme b) (root env) (js "dark-theme") = true
  ↔ theme = js "dark".
Proof.
  unfold applyTheme. case_decide as Hd.
  - destruct (themeToggle env); rewrite ?contains_setAttribute,
      contains_classList_add; tauto.
  - destruct (themeToggle env); rewrite ?contains_setAttribute,
      contains_classList_remove; tauto.
Qed.

Lemma saved_dark b : saved b = js "dark" ↔ getItem THEME_KEY b = Some (js "dark").
Proof.
  unfold saved. destruct (getItem THEME_KEY b) as [[|c s]|]; simpl.
  - split; intros H; vm_compute in H; congruence.
  - split; congruence.
  - split; intros H; vm_compute in H; congruence.
Qed.

(** C6: on load the script reads the preference stored under
    ['portfolio-theme'], takes ['light'] when nothing is stored, and applies
    it: afterwards the document root has the class [dark-theme] exactly when
    the stored value is ['dark']. *)
Theorem load_applies_saved_theme b :
  (load b).2 = applyTheme (load b).1 (saved b) b
  ∧ saved b = default (js "light") (getItem (js "portfolio-theme") b
                                       ≫= λ s, if truthy s then Some s else None)
  ∧ (contains (load b).2 (documentElement (load b).2) (js "dark-theme") = true
     ↔ getItem (js "portfolio-theme") b = Some (js "dark")).
Proof.
  split; [done|]. split.
  - unfold saved. change (js "portfolio-theme") with THEME_KEY.
    destruct (getItem THEME_KEY b) as [s|]; [|done]. simpl. by destruct (truthy s).
  - change (js "portfolio-theme") with THEME_KEY. rewrite <- saved_dark.
    assert (documentElement (load b).2 = root (load b).1) as ->.
    { unfold load, applyTheme. simpl.
      case_decide; destruct (qs b [by_id "theme-toggle"]); done. }
    apply contains_applyTheme.
Qed.

Lemma next_theme (dark : bool) :
  (if decide ((if dark then js "dark" else js "light") = js "dark")
   then js "light" else js "dark") = theme_name (negb dark).
Proof.
  by destruct dark; vm_compute.
Qed.

Lemma contains_setItem k v b h c : contains (setItem k v b) h c = contains b h c.
Proof. done. Qed.

Lemma theme_state_click env b :
  theme_state env (final (themeToggle_click env b))
  = (negb (contains b (root env) (js "dark-theme")),
     Some (theme_name (negb (contains b (root env) (js "dark-theme"))))).
Proof.
  unfold theme_state, themeToggle_click. simpl. rewrite next_theme. f_equal.
  - apply bool_eq_iff. rewrite contains_setItem, contains_applyTheme.
    destruct (contains b (root env) (js "dark-theme")); simpl;
      split; intros H; vm_compute in H; congruence.
  - unfold getItem, setItem. simpl. by rewrite lookup_insert_eq.
Qed.

Lemma contains_click env b :
  contains (final (themeToggle_click env b)) (root env) (js "dark-theme")
  = negb (contains b (root env) (js "dark-theme")).
Proof. exact (f_equal fst (theme_state_click env b)). Qed.

(** C4, as amended: two clicks on the theme toggle restore the class state
    of the root, and leave stored the name of the theme that was shown
    before them; from the first click on, two more clicks restore both the
    class state and the stored value. *)
Theorem theme_toggle_twice env b :
  let click := λ x, final (themeToggle_click env x) in
  theme_state env (click (click b))
  = (contains b (root env) (js "dark-theme"),
     Some (theme_name (contains b (root env) (js "dark-theme"))))
  ∧ theme_state env (click (click (click b))) = theme_state env (click b).
Proof.
  cbv zeta. split.
  - by rewrite theme_state_click, contains_click, negb_involutive.
  - by rewrite !theme_state_click, !contains_click, negb_involutive.
Qed.

(** C4, as stated, fails on a first visit: nothing is stored, and after two
    clicks ['light'] is.  It also fails for a stored string that disagrees
    with the class, such as ['dark'] written by another tab while the page
    shows the light theme: two clicks leave ['light']. *)
Lemma theme_toggle_twice_not_identity :
  let env := (load portfolio).1 in
  let b := (load portfolio).2 in
  let other := setItem THEME_KEY (js "dark") b in
  let click := λ x, final (themeToggle_click env x) in
  (theme_state env b = (false, None)
   ∧ theme_state env (click (click b)) = (false, Some (js "light"))
   ∧ theme_state env (click (click b)) ≠ theme_state env b)
  ∧ (theme_state env other = (false, Some (js "dark"))
     ∧ theme_state env (click (click other)) = (false, Some (js "light"))
     ∧ theme_state env (click (click other)) ≠ theme_state env other).
Proof. vm_compute. repeat split; congruence. Qed.

(** ** Contact form *)

Lemma submit_errors form b name email message :
  submitted b name email message →
  validate name email message ≠ [] →
  contactForm_submit form b
  = Return (error_feedback (validate name email message) b).
Proof.
  intros (Hn & He & Hm) Herr. unfold contactForm_submit, error_feedback.
  rewrite Hn, He, Hm.
  destruct (validate name email message) as [|e1 es]; [done|]. simpl.
  by destruct (qs b [by_id "form-feedback"]).
Qed.

Lemma value_update_classList h g b k :
  value (heap (update h (with_classList g) b) k) = value (heap b k).
Proof. simpl. by case_decide. Qed.

Lemma value_set_textContent h t b k :
  value (heap (set_textContent h t b) k) = value (heap b k).
Proof. simpl. by case_decide. Qed.

Lemma no_reset_error_feedback errors b : no_reset b (error_feedback errors b).
Proof.
  unfold error_feedback, no_reset.
  destruct (qs b [by_id "form-feedback"]) as [f|]; simpl.
  - split; [|done]. intros h. by repeat case_decide.
  - split; [done|]. intros f. rewrite !elem_of_app, !list_elem_of_singleton.
    intros [[?|?]|?]; done.
Qed.

Lemma test_emailRegex_truthy email :
  Regex.test emailRegex email = true → truthy email = true.
Proof. by destruct email. Qed.

Lemma truthy_false s : truthy s = false ↔ s = [].
Proof. by destruct s. Qed.

(** C2: when the trimmed name is empty and the other two fields pass, the
    feedback element gets exactly the text ["Please enter your name."],
    gains the class [error], loses the class [success], and the listener
    returns without resetting the form. *)
Theorem submit_empty_name form b name email message f :
  submitted b name email message →
  name = [] →
  Regex.test emailRegex email = true →
  message ≠ [] →
  qs b [by_id "form-feedback"] = Some f →
  ∃ b', contactForm_submit form b = Return b'
    ∧ textContent (heap b' f) = js "Please enter your name."
    ∧ contains b' f (js "error") = true
    ∧ contains b' f (js "success") = false
    ∧ no_reset b b'.
Proof.
  intros Hsub -> Hemail Hmsg Hf.
  assert (validate [] email message = [MSG_NAME]) as Hval.
  { unfold validate. rewrite Hemail, (test_emailRegex_truthy _ Hemail).
    by destruct message. }
  exists (error_feedback [MSG_NAME] b). split.
  { rewrite <- Hval. apply submit_errors; [done|]. by rewrite Hval. }
  split; [|split; [|split]].
  - unfold error_feedback. rewrite Hf. simpl. by rewrite !decide_True.
  - unfold error_feedback. rewrite Hf. rewrite contains_classList_add. by left.
  - unfold error_feedback. rewrite Hf.
    apply not_true_is_false. rewrite contains_classList_add.
    intros [[_ H]|H]; [by vm_compute in H|].
    rewrite contains_classList_remove in H. tauto.
  - apply no_reset_error_feedback.
Qed.

(** C3: an email that is empty after trimming, or that the pattern does not
    match, puts ["Please enter a valid email."] on the errors list, and the
    submission takes the error branch: the errors are reported and the
    form is not reset. *)
Theorem submit_invalid_email form b name email message :
  submitted b name email message →
  email = [] ∨ Regex.test emailRegex email = false →
  js "Please enter a valid email." ∈ validate name email message
  ∧ contactForm_submit form b
    = Return (error_feedback (validate name email message) b)
  ∧ no_reset b (error_feedback (validate name email message) b).
Proof.
  intros Hsub Hbad.
  assert (MSG_EMAIL ∈ validate name email message) as Hin.
  { unfold validate.
    assert (negb (truthy email) || negb (Regex.test emailRegex email) = true)
      as ->.
    { destruct Hbad as [-> | ->]; [done|]. apply orb_true_r. }
    rewrite !elem_of_app, list_elem_of_singleton. tauto. }
  split; [exact Hin|]. split.
  - apply submit_errors; [done|]. intros Hnil. rewrite Hnil in Hin.
    by apply not_elem_of_nil in Hin.
  - apply no_reset_error_feedback.
Qed.

(** C10: a submission that fails validation leaves the values of the form
    fields as they are: the listener reports the errors and returns before
    the reset. *)
Theorem submit_errors_keep_fields form b name email message :
  submitted b name email message →
  validate name email message ≠ [] →
  ∃ b', contactForm_submit form b = Return b'
    ∧ (∀ h, value (heap b' h) = value (heap b h))
    ∧ (∀ f, Reset f ∈ calls b' → Reset f ∈ calls b).
Proof.
  intros Hsub Herr. exists (error_feedback (validate name email message) b).
  split; [by apply submit_errors|]. apply no_reset_error_feedback.
Qed.

(** ** The document tree *)

Lemma tree_ind' (P : tree → Prop) :
  (∀ h kids, Forall P kids → P (Node h kids)) → ∀ t, P t.
Proof.
  intros step. fix IH 1. intros [h kids]. apply step.
  induction kids as [|k kids IHkids]; constructor; [apply IH | exact IHkids].
Qed.

Lemma elem_of_flat_map {A B} (f : A → list B) (l : list A) (y : B) :
  y ∈ flat_map f l ↔ ∃ x, x ∈ l ∧ y ∈ f x.
Proof.
  rewrite list_elem_of_In, in_flat_map.
  split; intros (x & Hx & Hy); exists x.
  - by rewrite !list_elem_of_In.
  - by rewrite <- !list_elem_of_In.
Qed.

Lemma elem_of_walk ancs h kids x :
  x ∈ walk ancs (Node h kids)
  ↔ x = (h, ancs) ∨ ∃ k, k ∈ kids ∧ x ∈ walk (h :: ancs) k.
Proof. simpl. by rewrite elem_of_cons, elem_of_flat_map. Qed.

(** The ancestors of an element found below [t] end with those of [t]. *)
Lemma walk_suffix t : ∀ ancs h a, (h, a) ∈ walk ancs t → ancs `suffix_of` a.
Proof.
  induction t as [k kids IH] using tree_ind'. intros ancs h a.
  rewrite elem_of_walk. intros [Heq | (kid & Hkid & Hin)].
  - by injection Heq as -> ->.
  - rewrite Forall_forall in IH.
    pose proof (IH kid Hkid _ _ _ Hin) as Hsuf.
    etrans; [|exact Hsuf]. by apply suffix_cons_r.
Qed.

(** Writing the text of [f] keeps every element that is not inside [f]. *)
Lemma walk_prune f t : ∀ ancs h a,
  (h, a) ∈ walk ancs t → f ∉ a → (h, a) ∈ walk ancs (prune f t).
Proof.
  induction t as [k kids IH] using tree_ind'. intros ancs h a Hin Hf.
  simpl. apply elem_of_walk in Hin as [Heq | (kid & Hkid & Hin)].
  - subst. case_decide; apply elem_of_walk; by left.
  - pose proof (walk_suffix _ _ _ _ Hin) as [pre ->].
    rewrite decide_False.
    2:{ intros ->. apply Hf. rewrite elem_of_app, elem_of_cons. tauto. }
    apply elem_of_walk. right. exists (prune f kid). split.
    + apply list_elem_of_fmap. by exists kid.
    + rewrite Forall_forall in IH. by apply IH.
Qed.

Lemma elem_of_descendants f t h :
  h ∈ descendants f t ↔ ∃ a, (h, a) ∈ walk [] t ∧ f ∈ a.
Proof.
  unfold descendants. rewrite list_elem_of_fmap. split.
  - intros ([h' a] & -> & Hin). apply list_elem_of_filter in Hin as [Hf Hin].
    by exists a.
  - intros (a & Hin & Hf). exists (h, a). split; [done|].
    by apply list_elem_of_filter.
Qed.

(** An element found by a selector has, among its ancestors, an element
    that the selector without its last compound finds. *)
Lemma matches_ancestors_split look c cs : ∀ ancs,
  matches_ancestors look (c :: cs) ancs = true →
  ∃ pre u post, ancs = pre ++ u :: post
    ∧ matches_compound c (look u) = true
    ∧ matches_ancestors look cs post = true.
Proof.
  induction ancs as [|a ancs IH]; simpl; [done|].
  intros [Hhere | Hlater]%orb_true_iff.
  - apply andb_true_iff in Hhere as [Hc Hcs]. by exists [], a, ancs.
  - destruct (IH Hlater) as (pre & u & post & -> & Hc & Hcs).
    by exists (a :: pre), u, post.
Qed.

(** Every ancestor of an element of the document is in the document, with
    the ancestors that remain above it. *)
Lemma walk_ancestor t : ∀ ancs h new pre u post,
  (h, new ++ ancs) ∈ walk ancs t → new = pre ++ u :: post →
  (u, post ++ ancs) ∈ walk ancs t.
Proof.
  induction t as [k kids IH] using tree_ind'.
  intros ancs h new pre u post Hin Hnew.
  apply elem_of_walk in Hin as [Heq | (kid & Hkid & Hin)].
  - exfalso. injection Heq as _ Heq.
    assert (length (new ++ ancs) = length ancs) as Hlen by by rewrite Heq.
    rewrite Hnew, !length_app in Hlen. simpl in Hlen. lia.
  - pose proof (walk_suffix _ _ _ _ Hin) as [new' Hnew'].
    assert (new = new' ++ [k]) as Hk.
    { apply (app_inv_tail ancs). by rewrite <- app_assoc. }
    rewrite Forall_forall in IH.
    destruct (decide (post = [])) as [-> | Hpost].
    + assert (u = k ∧ pre = new') as [-> ->].
      { rewrite Hnew in Hk. apply app_inj_tail in Hk. intuition congruence. }
      simpl. apply elem_of_walk. by left.
    + destruct (exists_last Hpost) as (post' & z & ->).
      assert (z = k ∧ new' = pre ++ u :: post') as [-> Hn'].
      { rewrite Hnew in Hk.
        change (pre ++ u :: post' ++ [z]) with (pre ++ (u :: post') ++ [z]) in Hk.
        rewrite app_assoc in Hk. apply app_inj_tail in Hk. intuition congruence. }
      apply elem_of_walk. right. exists kid. split; [done|].
      rewrite <- app_assoc. simpl.
      apply (IH kid Hkid (k :: ancs) h new' pre u post'); [|done].
      by rewrite <- Hnew'.
Qed.

Lemma matches_prefix look sel c x t :
  sel ≠ [] →
  x ∈ walk [] t → matches look (sel ++ [c]) x = true →
  ∃ y, y ∈ walk [] t ∧ matches look sel y = true.
Proof.
  intros Hsel Hin. unfold matches. rewrite rev_app_distr. simpl.
  destruct (rev sel) as [|c' cs] eqn:Hrev.
  { destruct Hsel. apply (f_equal (@rev _)) in Hrev.
    by rewrite rev_involutive in Hrev. }
  intros [_ Hanc]%andb_true_iff.
  destruct (matches_ancestors_split _ _ _ _ Hanc) as (pre & u & post & Ha & Hc & Hcs).
  exists (u, post). split.
  - destruct x as [h a]. simpl in Ha.
    pose proof (walk_ancestor t [] h a pre u post) as Hw.
    rewrite !app_nil_r in Hw. by apply Hw.
  - simpl. by rewrite Hc, Hcs.
Qed.

Lemma qsa_prefix b sel c :
  sel ≠ [] → qsa b (sel ++ [c]) ≠ [] → is_Some (qs b sel).
Proof.
  intros Hsel Hne. unfold qs.
  destruct (qsa b (sel ++ [c])) as [|h hs] eqn:Hq; [done|].
  assert (h ∈ qsa b (sel ++ [c])) as Hh by (rewrite Hq; left).
  unfold qsa in Hh. apply list_elem_of_fmap in Hh as (x & -> & Hx).
  apply list_elem_of_filter in Hx as [Hm Hx].
  destruct (matches_prefix _ _ _ _ _ Hsel Hx Hm) as ([u post] & Hy & Hmy).
  assert (u ∈ qsa b sel) as Hu.
  { unfold qsa. apply list_elem_of_fmap. exists (u, post). split; [done|].
    by apply list_elem_of_filter. }
  destruct (qsa b sel); [by apply not_elem_of_nil in Hu | by eexists].
Qed.

(** ** Missing elements *)

Lemma nav_links_have_list b :
  navLinks (bindings b) ≠ [] → is_Some (navUL (bindings b)).
Proof.
  simpl. intros Hlinks.
  apply (qsa_prefix b sel_nav_ul (by_tag "li")); [done|].
  assert (is_Some (qs b (sel_nav_ul ++ [by_tag "li"]))) as [h Hh].
  { by apply (qsa_prefix b (sel_nav_ul ++ [by_tag "li"]) (by_tag "a")). }
  unfold qs in Hh. intros Hnil. by rewrite Hnil in Hh.
Qed.

Lemma modal_part_has_modal b k :
  is_Some (qs b (sel_modal_part k)) → is_Some (qs b [by_id "project-modal"]).
Proof.
  intros [h Hh]. apply (qsa_prefix b [by_id "project-modal"] (by_class k)); [done|].
  unfold qs in Hh. intros Hnil.
  change ([by_id "project-modal"] ++ [by_class k]) with (sel_modal_part k) in Hnil.
  by rewrite Hnil in Hh.
Qed.

(** A nav link is inside a [nav ul], so the list that its click listener
    uses was found when the script ran: the listener cannot throw. *)
Lemma nav_link_click_never_throws page a b l :
  l ∈ listeners (bindings page) (NavLinkClick a) → throws (l b) = false.
Proof.
  simpl. case_decide as Ha; [|by intros ?%not_elem_of_nil].
  intros ->%list_elem_of_singleton.
  destruct (nav_links_have_list page) as [ul Hul].
  { simpl. intros Hnil. rewrite Hnil in Ha. by apply not_elem_of_nil in Ha. }
  unfold navLink_click. rewrite Hul. by destruct (contains b ul (js "open")).
Qed.

(** The close button is looked up inside [#project-modal], so the modal
    was found as well: its click listener cannot throw. *)
Lemma modal_close_click_never_throws page b l :
  l ∈ listeners (bindings page) ModalCloseClick → throws (l b) = false.
Proof.
  simpl. destruct (qs page (sel_modal_part "modal-close")) as [c|] eqn:Hc;
    [|by intros ?%not_elem_of_nil].
  intros ->%list_elem_of_singleton.
  destruct (modal_part_has_modal page "modal-close") as [m Hm]; [by eexists|].
  unfold modalClose_click. simpl. by rewrite Hm.
Qed.

(** C1, at a page with the [#nav-toggle] button and no [nav ul]: the script
    installs the click listener of the button, and a click throws a
    [TypeError] from [navUL.classList]. *)
Theorem nav_toggle_click_without_nav_list :
  let env := (load page_without_nav_list).1 in
  let b := (load page_without_nav_list).2 in
  navToggle env = Some 8%nat
  ∧ navUL env = None
  ∧ length (listeners env NavToggleClick) = 1%nat
  ∧ (fire env NavToggleClick b).2 = [TypeError].
Proof. by vm_compute. Qed.

(** ** Contact form, continued *)

(** C7: without a [#form-feedback] element the outcome of a submission goes
    to [alert]: the errors joined by line breaks when validation fails,
    the success message when it passes; the listener returns normally in
    both cases. *)
Theorem submit_without_feedback form b name email message :
  submitted b name email message →
  qs b [by_id "form-feedback"] = None →
  ∃ b', contactForm_submit form b = Return b'
    ∧ calls b'
      = calls b ++ (Warn MSG_MISSING_FEEDBACK ::
          match validate name email message with
          | [] => [Alert MSG_SUCCESS; Reset form]
          | errors => [Alert (array_join NEWLINE errors)]
          end).
Proof.
  intros (Hn & He & Hm) Hf. unfold contactForm_submit.
  rewrite Hn, He, Hm, Hf.
  destruct (validate name email message) as [|e1 es]; simpl;
    eexists; (split; [done|]); simpl; by rewrite <- !app_assoc.
Qed.

Lemma validate_passes name email message :
  name ≠ [] → Regex.test emailRegex email = true → message ≠ [] →
  validate name email message = [].
Proof.
  intros Hn He Hm. unfold validate.
  rewrite He, (test_emailRegex_truthy _ He).
  by destruct name, message.
Qed.

Lemma reset_control_keeps e :
  textContent (reset_control e) = textContent e
  ∧ classList (reset_control e) = classList e.
Proof. unfold reset_control. by destruct (value e). Qed.

Lemma textContent_form_reset form b h :
  textContent (heap (form_reset form b) h) = textContent (heap b h).
Proof. simpl. case_decide; [apply reset_control_keeps | done]. Qed.

Lemma contains_form_reset form b h c :
  contains (form_reset form b) h c = contains b h c.
Proof.
  unfold contains. simpl. case_decide; [|done].
  by destruct (reset_control_keeps (heap b h)) as [_ ->].
Qed.

(** ** Active link *)

Lemma same_layout_refl b : same_layout b b.
Proof. done. Qed.

Lemma same_layout_trans b1 b2 b3 :
  same_layout b1 b2 → same_layout b2 b3 → same_layout b1 b3.
Proof.
  intros H12 H23 h. destruct (H12 h) as (? & ? & ?), (H23 h) as (? & ? & ?).
  repeat split; congruence.
Qed.

Lemma same_layout_update h g b : same_layout b (update h (with_classList g) b).
Proof. intros k. simpl. by case_decide. Qed.

Lemma same_layout_remove_active links b : same_layout b (remove_active links b).
Proof.
  unfold remove_active. revert b.
  induction links as [|l links IH]; intros b; simpl; [done|].
  eapply same_layout_trans; [|apply IH]. apply same_layout_update.
Qed.

Lemma same_layout_activate env sec b : same_layout b (activate env sec b).
Proof.
  unfold activate. destruct (qs b _).
  - eapply same_layout_trans;
      [apply same_layout_remove_active | apply same_layout_update].
  - apply same_layout_remove_active.
Qed.

Lemma same_layout_in_range pos b b' sec :
  same_layout b b' → in_range pos b' sec = in_range pos b sec.
Proof. intros H. unfold in_range. by destruct (H sec) as (_ & -> & ->). Qed.

Lemma same_layout_section_id b b' sec :
  same_layout b b' → section_id b' sec = section_id b sec.
Proof.
  intros H. unfold section_id, getAttribute. by destruct (H sec) as (-> & _).
Qed.

Lemma highlight_section_plain env pos sec b :
  css_plain (section_id b sec) = true →
  highlight_section env pos sec b
  = Return (if in_range pos b sec then activate env sec b else b).
Proof.
  intros Hplain. unfold highlight_section, qs_nav_link_to, activate.
  fold (section_id b sec). rewrite Hplain.
  destruct (in_range pos b sec); [|done].
  by destruct (qs b _).
Qed.

(** Sections out of range leave the page as it is. *)
Lemma highlight_sections_none env pos (secs : list handle) : ∀ b,
  forallb (λ s, css_plain (section_id b s)) secs = true →
  filter (λ s, in_range pos b s = true) secs = [] →
  highlight_sections env pos secs b = Return b.
Proof.
  induction secs as [|s secs IH]; intros b Hplain Hnone; [done|].
  simpl in Hplain. apply andb_true_iff in Hplain as [Hs Hplain].
  rewrite filter_cons in Hnone. case_decide as Hr; [done|].
  apply not_true_is_false in Hr.
  simpl. rewrite highlight_section_plain, Hr by done. simpl. by apply IH.
Qed.

Lemma forallb_same_layout b b' (secs : list handle) :
  same_layout b b' →
  forallb (λ s, css_plain (section_id b' s)) secs
  = forallb (λ s, css_plain (section_id b s)) secs.
Proof.
  intros H. induction secs as [|s secs IH]; [done|].
  simpl. by rewrite IH, (same_layout_section_id b b').
Qed.

Lemma filter_same_layout pos b b' (secs : list handle) :
  same_layout b b' →
  filter (λ s, in_range pos b' s = true) secs
  = filter (λ s, in_range pos b s = true) secs.
Proof.
  intros H. apply list_filter_iff. intros s.
  by rewrite (same_layout_in_range pos b b').
Qed.

(** With one section in range the loop activates that section's link and
    does nothing else. *)
Lemma highlight_sections_one env pos sec (secs : list handle) : ∀ b,
  forallb (λ s, css_plain (section_id b s)) secs = true →
  filter (λ s, in_range pos b s = true) secs = [sec] →
  highlight_sections env pos secs b = Return (activate env sec b).
Proof.
  induction secs as [|s secs IH]; intros b Hplain Hone; [done|].
  simpl in Hplain. apply andb_true_iff in Hplain as [Hs Hplain].
  rewrite filter_cons in Hone. simpl.
  rewrite highlight_section_plain by done.
  case_decide as Hr.
  - injection Hone as -> Hrest. rewrite Hr. simpl.
    apply highlight_sections_none.
    + by rewrite (forallb_same_layout b) by apply same_layout_activate.
    + by rewrite (filter_same_layout pos b) by apply same_layout_activate.
  - apply not_true_is_false in Hr. rewrite Hr. simpl. by apply IH.
Qed.

Lemma contains_remove_active links : ∀ b h c,
  contains (remove_active links b) h c = true
  ↔ ¬ (h ∈ links ∧ c = js "active") ∧ contains b h c = true.
Proof.
  unfold remove_active.
  induction links as [|l links IH]; intros b h c; simpl.
  - split; [|tauto]. intros H. split; [|done]. by intros [?%not_elem_of_nil _].
  - rewrite IH, contains_classList_remove, elem_of_cons. intuition congruence.
Qed.

(** C8, as amended: when every section id is plain, so that it can stand
    unescaped between the quotes of the selector, and the scroll position
    plus the 120 pixel header offset lies in the range of exactly one
    section, the scroll and load listener leaves [active] on the nav link
    whose href is [#] followed by the id of that section, and on no other
    nav link. *)
Theorem scroll_highlights_section env b sec :
  forallb (λ s, css_plain (section_id b s)) (sections env) = true →
  filter (λ s, in_range (scrollY b + 120) b s = true) (sections env) = [sec] →
  let link := qs b (sel_nav_link_to (js "#" ++ section_id b sec)) in
  ∃ b', onScrollHighlight env b = Return b'
    ∧ (∀ l, link = Some l → contains b' l (js "active") = true)
    ∧ (∀ l, l ∈ navLinks env →
         (contains b' l (js "active") = true ↔ link = Some l)).
Proof.
  intros Hplain Hone link. exists (activate env sec b). split.
  { by apply highlight_sections_one. }
  unfold activate. fold link. destruct link as [l0|].
  - split.
    + intros l [= ->]. rewrite contains_classList_add. by left.
    + intros l Hl. rewrite contains_classList_add, contains_remove_active.
      split; [|intros [= ->]; by left].
      intros [[-> _] | [Hno _]]; [done|]. by destruct Hno.
  - split; [done|]. intros l Hl. rewrite contains_remove_active.
    split; [|done]. intros [Hno _]. by destruct Hno.
Qed.

(** ** The properties on the sample page *)

(** A decidable statement about a concrete page, by evaluation. *)
Ltac evaluated := apply (bool_decide_unpack _); vm_compute; exact I.

(** Scrolled to 500 pixels, the sample page shows its back-to-top link. *)
Lemma back_to_top_visible_iff_witness :
  let env := (load portfolio).1 in
  let b := scrolled 500 (load portfolio).2 in
  backTop env = Some 18%nat
  ∧ (contains (fire env WindowScroll b).1 18%nat (js "visible") = true
     ↔ (400 < scrollY b)%Z).
Proof.
  split; [reflexivity|].
  apply (back_to_top_visible_iff (load portfolio).1
           (scrolled 500 (load portfolio).2) 18%nat).
  reflexivity.
Defined.

(** A name of two spaces on the sample page. *)
Lemma submit_empty_name_witness :
  let b := typed "  " "ann@example.org" "Hello" (load portfolio).2 in
  submitted b [] (js "ann@example.org") (js "Hello")
  ∧ ∃ b', contactForm_submit 11%nat b = Return b'
      ∧ textContent (heap b' 15%nat) = js "Please enter your name."
      ∧ contains b' 15%nat (js "error") = true
      ∧ contains b' 15%nat (js "success") = false
      ∧ no_reset b b'.
Proof.
  assert (submitted (typed "  " "ann@example.org" "Hello" (load portfolio).2)
            [] (js "ann@example.org") (js "Hello")) as Hsub.
  { repeat split; vm_compute; reflexivity. }
  split; [exact Hsub|].
  apply (submit_empty_name 11%nat _ [] (js "ann@example.org") (js "Hello") 15%nat
           Hsub eq_refl).
  - vm_compute; reflexivity.
  - vm_compute; discriminate.
  - vm_compute; reflexivity.
Defined.

(** An email without ['@'] on the sample page. *)
Lemma submit_invalid_email_witness :
  let b := typed "Ann" "ann.example.org" "Hello" (load portfolio).2 in
  submitted b (js "Ann") (js "ann.example.org") (js "Hello")
  ∧ Regex.test emailRegex (js "ann.example.org") = false
  ∧ js "Please enter a valid email."
      ∈ validate (js "Ann") (js "ann.example.org") (js "Hello")
  ∧ contactForm_submit 11%nat b
    = Return (error_feedback
                (validate (js "Ann") (js "ann.example.org") (js "Hello")) b)
  ∧ no_reset b
      (error_feedback (validate (js "Ann") (js "ann.example.org") (js "Hello")) b).
Proof.
  assert (submitted (typed "Ann" "ann.example.org" "Hello" (load portfolio).2)
            (js "Ann") (js "ann.example.org") (js "Hello")) as Hsub.
  { repeat split; vm_compute; reflexivity. }
  split; [exact Hsub|]. split; [vm_compute; reflexivity|].
  apply (submit_invalid_email 11%nat _ _ _ _ Hsub).
  right. vm_compute; reflexivity.
Defined.

(** A message of three spaces on the sample page. *)
Lemma submit_errors_keep_fields_witness :
  let b := typed "Ann" "ann@example.org" "   " (load portfolio).2 in
  submitted b (js "Ann") (js "ann@example.org") []
  ∧ validate (js "Ann") (js "ann@example.org") [] = [MSG_MESSAGE]
  ∧ ∃ b', contactForm_submit 11%nat b = Return b'
      ∧ (∀ h, value (heap b' h) = value (heap b h))
      ∧ (∀ f, Reset f ∈ calls b' → Reset f ∈ calls b).
Proof.
  assert (submitted (typed "Ann" "ann@example.org" "   " (load portfolio).2)
            (js "Ann") (js "ann@example.org") []) as Hsub.
  { repeat split; vm_compute; reflexivity. }
  split; [exact Hsub|]. split; [vm_compute; reflexivity|].
  apply (submit_errors_keep_fields 11%nat _ _ _ _ Hsub).
  vm_compute; discriminate.
Defined.

(** No name and an email without a dot, on the page that lacks the feedback
    paragraph. *)
Lemma submit_without_feedback_witness :
  let b := without_feedback (typed "" "ann@example" "Hello" (load portfolio).2) in
  submitted b [] (js "ann@example") (js "Hello")
  ∧ qs b [by_id "form-feedback"] = None
  ∧ ∃ b', contactForm_submit 11%nat b = Return b'
      ∧ calls b'
        = calls b ++ (Warn MSG_MISSING_FEEDBACK ::
            match validate [] (js "ann@example") (js "Hello") with
            | [] => [Alert MSG_SUCCESS; Reset 11%nat]
            | errors => [Alert (array_join NEWLINE errors)]
            end).
Proof.
  assert (submitted
            (without_feedback (typed "" "ann@example" "Hello" (load portfolio).2))
            [] (js "ann@example") (js "Hello")) as Hsub.
  { repeat split; vm_compute; reflexivity. }
  split; [exact Hsub|]. split; [vm_compute; reflexivity|].
  apply (submit_without_feedback 11%nat _ _ _ _ Hsub).
  vm_compute; reflexivity.
Defined.

(** Scrolled to 500 pixels, the sample page is in its second section, whose
    link is the second nav link. *)
Lemma scroll_highlights_section_witness :
  let env := (load portfolio).1 in
  let b := scrolled 500 (load portfolio).2 in
  filter (λ s, in_range (scrollY b + 120) b s = true) (sections env) = [10%nat]
  ∧ qs b (sel_nav_link_to (js "#" ++ section_id b 10%nat)) = Some 7%nat
  ∧ ∃ b', onScrollHighlight env b = Return b'
      ∧ (∀ l, qs b (sel_nav_link_to (js "#" ++ section_id b 10%nat)) = Some l →
           contains b' l (js "active") = true)
      ∧ (∀ l, l ∈ navLinks env →
           (contains b' l (js "active") = true
            ↔ qs b (sel_nav_link_to (js "#" ++ section_id b 10%nat)) = Some l)).
Proof.
  split; [vm_compute; reflexivity|]. split; [vm_compute; reflexivity|].
  apply (scroll_highlights_section (load portfolio).1
           (scrolled 500 (load portfolio).2) 10%nat).
  - vm_compute; reflexivity.
  - vm_compute; reflexivity.
Defined.

(** ** The link of a section *)

Lemma filter_fst {A B} (P : A → Prop) `{!∀ x, Decision (P x)} (l : list (A * B)) :
  filter P l.*1 = (filter (λ x, P x.1) l).*1.
Proof.
  induction l as [|x l IH]; [done|].
  rewrite fmap_cons, !filter_cons. case_decide; by rewrite ?fmap_cons, IH.
Qed.

Lemma matches_nav_link_to look v x :
  matches look (sel_nav_link_to v) x = true
  ↔ attrs (look x.1) !! js "href" = Some v
    ∧ matches look sel_nav_links x = true.
Proof.
  unfold matches, sel_nav_link_to, sel_nav_links, matches_compound. simpl.
  rewrite !andb_true_r, !andb_true_iff, !bool_decide_eq_true. tauto.
Qed.

(** The link that the highlighter looks up for a section is the first nav
    link, in document order, whose [href] is the given one. *)
Lemma qs_nav_link_to_first b v :
  qs b (sel_nav_link_to v)
  = head (filter (λ l, getAttribute b l (js "href") = Some v)
            (qsa b sel_nav_links)).
Proof.
  unfold qs. f_equal. unfold qsa, getAttribute.
  rewrite (filter_fst (λ l, attrs (heap b l) !! js "href" = Some v)).
  f_equal. rewrite list_filter_filter. apply list_filter_iff. intros x.
  apply matches_nav_link_to.
Qed.

(** * Further properties of the script *)

(** ** Validation *)

(** X1: the pattern [emailRegex] accepts exactly the strings made of a
    local part, ['@'], a domain, ['.'] and a last label, where the three
    parts are non-empty and hold neither white space nor ['@']. *)
Theorem emailRegex_accepts_exactly s :
  Regex.test emailRegex s = true ↔ email_shape s.
Proof. apply emailRegex_shape. Qed.

Lemma messages_differ :
  MSG_NAME ≠ MSG_EMAIL ∧ MSG_NAME ≠ MSG_MESSAGE ∧ MSG_EMAIL ≠ MSG_MESSAGE.
Proof. repeat split; literals. Qed.

Lemma email_check email :
  negb (truthy email) || negb (Regex.test emailRegex email) = false
  ↔ email_shape email.
Proof.
  rewrite <- emailRegex_shape. split.
  - intros [_ H]%orb_false_iff. by apply negb_false_iff.
  - intros H. by rewrite H, (test_emailRegex_truthy _ H).
Qed.

Lemma validate_email_error name email message :
  MSG_EMAIL ∈ validate name email message ↔ ¬ email_shape email.
Proof.
  destruct messages_differ as (Hne & Hnm & Hem).
  pose proof (email_check email) as Hemail.
  unfold validate.
  destruct (negb (truthy email) || negb (Regex.test emailRegex email));
    destruct name as [|c n], message as [|d m]; simpl;
    rewrite ?elem_of_cons, ?elem_of_nil; intuition congruence.
Qed.

(** X2: each of the three error messages is reported for its own field and
    for nothing else: the name message exactly when the trimmed name is
    empty, the email message exactly when the trimmed email does not
    have the shape above, the message one exactly when the trimmed
    message is empty; no error is reported exactly when all three pass. *)
Theorem validate_reports name email message :
  (MSG_NAME ∈ validate name email message ↔ name = [])
  ∧ (MSG_EMAIL ∈ validate name email message ↔ ¬ email_shape email)
  ∧ (MSG_MESSAGE ∈ validate name email message ↔ message = [])
  ∧ (validate name email message = []
     ↔ name ≠ [] ∧ email_shape email ∧ message ≠ []).
Proof.
  destruct messages_differ as (Hne & Hnm & Hem).
  pose proof (email_check email) as Hemail.
  unfold validate.
  destruct (negb (truthy email) || negb (Regex.test emailRegex email));
    destruct name as [|c n], message as [|d m]; simpl;
    rewrite ?elem_of_cons, ?elem_of_nil;
    repeat split; try (intros; intuition congruence).
Qed.

(** ** Trimming *)

Lemma trimStart_shape s :
  trimStart s = [] ∨ ∃ c t, trimStart s = c :: t ∧ is_space c = false.
Proof.
  induction s as [|c s IH]; simpl; [by left|].
  destruct (is_space c) eqn:Hc; [done|]. right. by exists c, s.
Qed.

Lemma trimStart_nil s : trimStart s = [] ↔ all_space s = true.
Proof.
  unfold all_space. induction s as [|c s IH]; simpl; [done|].
  destruct (is_space c); simpl; [done|]. split; discriminate.
Qed.

Lemma all_space_rev s : all_space (rev s) = all_space s.
Proof.
  unfold all_space. induction s as [|c s IH]; simpl; [done|].
  rewrite forallb_app, IH. simpl. rewrite andb_true_r. apply andb_comm.
Qed.

Lemma trimStart_all_space_app ws s :
  all_space ws = true → trimStart (ws ++ s) = trimStart s.
Proof.
  unfold all_space. induction ws as [|c ws IH]; simpl; [done|].
  intros [-> H]%andb_true_iff. by apply IH.
Qed.

Lemma trim_nil s : trim s = [] ↔ all_space s = true.
Proof.
  unfold trim, trimEnd. split.
  - intros H. apply (f_equal (@rev N)) in H. rewrite rev_involutive in H.
    simpl in H. apply trimStart_nil in H. rewrite all_space_rev in H.
    destruct (trimStart_shape s) as [Hs | (c & t & Hs & Hc)].
    + by apply trimStart_nil.
    + rewrite Hs in H. unfold all_space in H. simpl in H. by rewrite Hc in H.
  - intros H. apply trimStart_nil in H. by rewrite H.
Qed.

(** White space around a string that begins and ends with other code
    units is all that [trim] removes. *)
Lemma trim_around ws1 ws2 c core d :
  all_space ws1 = true → all_space ws2 = true →
  is_space c = false → is_space d = false →
  trim (ws1 ++ (c :: core ++ [d]) ++ ws2) = c :: core ++ [d].
Proof.
  intros H1 H2 Hc Hd. unfold trim, trimEnd.
  rewrite trimStart_all_space_app by done. simpl. rewrite Hc.
  change (c :: (core ++ [d]) ++ ws2) with ((c :: core ++ [d]) ++ ws2).
  rewrite rev_app_distr, trimStart_all_space_app by by rewrite all_space_rev.
  change (c :: core ++ [d]) with ((c :: core) ++ [d]).
  rewrite rev_app_distr. simpl. rewrite Hd.
  change (d :: rev core ++ [c]) with ([d] ++ rev (c :: core)).
  rewrite rev_app_distr, rev_involutive. done.
Qed.

Lemma not_space_at_space c : not_space_at c = true → is_space c = false.
Proof.
  unfold not_space_at. intros H%negb_true_iff. by apply orb_false_iff in H as [H _].
Qed.

Lemma nonempty_ends (l : list N) :
  l ≠ [] → (∃ c t, l = c :: t) ∧ (∃ t d, l = t ++ [d]).
Proof.
  intros H. split.
  - destruct l; [done | by eexists _, _].
  - destruct (exists_last H) as (t & d & ->). by eexists _, _.
Qed.

(** X3: a field counts as empty exactly when it holds nothing but white
    space: the trimmed value that the submit listener reads is the empty
    string precisely for such a field. *)
Theorem blank_field_reads_empty b sel h raw :
  qs b sel = Some h → value (heap b h) = Some raw →
  (trimmed_value b sel = Some [] ↔ all_space raw = true).
Proof.
  intros Hq Hv. unfold trimmed_value. rewrite Hq, Hv. simpl.
  rewrite <- trim_nil. split; [by intros [= ->] | by intros ->].
Qed.

(** X4: white space typed before or after a well-formed email address does
    not make it invalid: trimming gives the address back, and no email
    error is reported for it. *)
Theorem padded_email_passes ws1 ws2 email name message :
  email_shape email → all_space ws1 = true → all_space ws2 = true →
  trim (ws1 ++ email ++ ws2) = email
  ∧ MSG_EMAIL ∉ validate name (trim (ws1 ++ email ++ ws2)) message.
Proof.
  intros Hshape H1 H2.
  assert (trim (ws1 ++ email ++ ws2) = email) as Htrim.
  { destruct Hshape as (loc & dom & tld & -> & Hl & _ & Ht & Hall).
    rewrite !Forall_app in Hall. destruct Hall as (Al & _ & At).
    destruct (nonempty_ends loc Hl) as [(c & l' & ->) _].
    destruct (nonempty_ends tld Ht) as [_ (t' & d & ->)].
    apply Forall_cons in Al as [Hc _].
    apply Forall_app in At as [_ [Hd _]%Forall_cons].
    assert ((c :: l') ++ [64] ++ dom ++ [46] ++ t' ++ [d]
            = c :: (l' ++ [64] ++ dom ++ [46] ++ t') ++ [d]) as ->.
    { by rewrite <- app_comm_cons, <- !app_assoc. }
    apply trim_around; auto using not_space_at_space. }
  split; [exact Htrim|]. rewrite Htrim.
  rewrite validate_email_error. tauto.
Qed.

(** ** Mobile nav *)

Lemma contains_classList_toggle b h c k x :
  contains (classList_toggle h c b) k x = true
  ↔ if decide (k = h ∧ x = c) then contains b k x = false
    else contains b k x = true.
Proof.
  case_decide as Hd.
  - destruct Hd as [-> ->]. rewrite contains_false, contains_true.
    unfold classList_toggle. rewrite heap_update_eq. simpl. unfold token_toggle.
    case_decide as Hin.
    + rewrite elem_of_token_remove. naive_solver.
    + rewrite elem_of_app, list_elem_of_singleton. naive_solver.
  - rewrite !contains_true. unfold classList_toggle.
    destruct (decide (k = h)) as [->|Hne].
    + rewrite heap_update_eq. simpl. unfold token_toggle.
      case_decide as Hin.
      * rewrite elem_of_token_remove. naive_solver.
      * rewrite elem_of_app, list_elem_of_singleton. naive_solver.
    + by rewrite heap_update_ne.
Qed.

Lemma getAttribute_setAttribute h n v b :
  getAttribute (setAttribute h n v b) h n = Some v.
Proof.
  unfold getAttribute, setAttribute. rewrite heap_update_eq. simpl.
  apply lookup_insert_eq.
Qed.

(** X5: when the nav list exists, a click on the toggle flips the class
    [open] of the list, writes the new state into [aria-expanded] of the
    button as ['true'] or ['false'], and changes no other class. *)
Theorem nav_toggle_click_flips env t ul b :
  navUL env = Some ul →
  ∃ b', navToggle_click env t b = Return b'
    ∧ contains b' ul (js "open") = negb (contains b ul (js "open"))
    ∧ getAttribute b' t (js "aria-expanded")
      = Some (bool_string (contains b' ul (js "open")))
    ∧ ∀ h c, (h, c) ≠ (ul, js "open") → contains b' h c = contains b h c.
Proof.
  intros Hul. unfold navToggle_click. rewrite Hul. eexists. split; [done|].
  split; [|split].
  - rewrite contains_setAttribute. apply bool_eq_iff.
    rewrite contains_classList_toggle, decide_True by done.
    by destruct (contains b ul (js "open")).
  - by rewrite getAttribute_setAttribute, contains_setAttribute.
  - intros h c Hne. rewrite contains_setAttribute. apply bool_eq_iff.
    rewrite contains_classList_toggle, decide_False; [done|].
    intros [-> ->]. by apply Hne.
Qed.

(** X6: the click listener that closes the mobile nav never throws,
    although it uses the nav list unchecked: a nav link lies inside the
    list, so the list was found at load time.  After it has run the list
    is not [open], and no other class has changed. *)
Theorem nav_link_click_closes page a b :
  a ∈ navLinks (bindings page) →
  ∃ ul, navUL (bindings page) = Some ul
    ∧ (fire (bindings page) (NavLinkClick a) b).2 = []
    ∧ contains (fire (bindings page) (NavLinkClick a) b).1 ul (js "open") = false
    ∧ ∀ h c, (h, c) ≠ (ul, js "open") →
        contains (fire (bindings page) (NavLinkClick a) b).1 h c = contains b h c.
Proof.
  intros Ha.
  destruct (nav_links_have_list page) as [ul Hul].
  { intros Hnil. rewrite Hnil in Ha. by apply not_elem_of_nil in Ha. }
  exists ul. split; [done|].
  unfold fire, listeners. rewrite decide_True by done.
  unfold run, navLink_click. rewrite Hul.
  destruct (contains b ul (js "open")) eqn:Hopen; simpl.
  - split; [done|]. split.
    + apply not_true_is_false. rewrite contains_classList_remove. tauto.
    + intros h c Hne. apply bool_eq_iff. rewrite contains_classList_remove.
      split; [tauto|]. intros H. split; [|done]. intros [-> ->]. by apply Hne.
  - done.
Qed.

(** ** Modal *)

(** X7: the click listener of the close button never throws, although it
    uses the modal unchecked: the button is looked up inside the modal.
    After it has run the modal is not [open] and the body overflow is
    cleared. *)
Theorem modal_close_click_closes page b :
  is_Some (modalClose (bindings page)) →
  ∃ m, modal (bindings page) = Some m
    ∧ (fire (bindings page) ModalCloseClick b).2 = []
    ∧ contains (fire (bindings page) ModalCloseClick b).1 m (js "open") = false
    ∧ bodyOverflow (fire (bindings page) ModalCloseClick b).1 = [].
Proof.
  intros Hclose.
  destruct (modal_part_has_modal page "modal-close" Hclose) as [m Hm].
  exists m. split; [done|].
  unfold fire, listeners. destruct Hclose as [c Hc]. rewrite Hc.
  unfold run, modalClose_click. simpl modal. rewrite Hm. simpl.
  split; [done|]. split; [|done].
  apply not_true_is_false.
  change (contains (set_bodyOverflow [] (classList_remove m (js "open") b)) m
            (js "open")) with (contains (classList_remove m (js "open") b) m (js "open")).
  rewrite contains_classList_remove. tauto.
Qed.

(** X8: the keydown listener closes the modal on Escape and the click
    listener of the modal closes it for a click whose target is the modal
    itself, whether or not it was open; on any other key the keydown
    listener changes nothing. *)
Theorem modal_escape_and_backdrop env m b key :
  modal env = Some m → key ≠ js "Escape" →
  (fire env (KeyDown (js "Escape")) b).2 = []
  ∧ contains (fire env (KeyDown (js "Escape")) b).1 m (js "open") = false
  ∧ (fire env (ModalClick m) b).2 = []
  ∧ contains (fire env (ModalClick m) b).1 m (js "open") = false
  ∧ fire env (KeyDown key) b = (b, []).
Proof.
  intros Hm Hkey.
  assert (contains (set_bodyOverflow [] (classList_remove m (js "open") b)) m
            (js "open") = false) as Hclosed.
  { apply not_true_is_false.
    change (contains (set_bodyOverflow [] (classList_remove m (js "open") b)) m
              (js "open"))
      with (contains (classList_remove m (js "open") b) m (js "open")).
    rewrite contains_classList_remove. tauto. }
  unfold fire, listeners, run. rewrite Hm.
  unfold document_keydown, modal_click. rewrite Hm.
  rewrite !(decide_True (P := js "Escape" = js "Escape")) by done.
  rewrite (decide_True (P := m = m)) by done.
  rewrite (decide_False (P := key = js "Escape")) by done.
  destruct (contains b m (js "open")) eqn:Hopen; simpl; by rewrite ?Hclosed.
Qed.

(** ** Selectors and class changes *)

Lemma only_classes_refl b : only_classes b b.
Proof. by repeat split. Qed.

Lemma only_classes_trans b1 b2 b3 :
  only_classes b1 b2 → only_classes b2 b3 → only_classes b1 b3.
Proof.
  intros (? & ? & ? & ? & ? & H12) (? & ? & ? & ? & ? & H23).
  repeat split; try congruence;
    destruct (H12 h) as (? & ? & ? & ? & ? & ? & ?),
             (H23 h) as (? & ? & ? & ? & ? & ? & ?); congruence.
Qed.

Lemma only_classes_update h g b : only_classes b (update h (with_classList g) b).
Proof. repeat split; simpl; by case_decide. Qed.

Lemma only_classes_remove_active links b :
  only_classes b (remove_active links b).
Proof.
  unfold remove_active. revert b.
  induction links as [|l links IH]; intros b; simpl; [apply only_classes_refl|].
  eapply only_classes_trans; [|apply IH]. apply only_classes_update.
Qed.

Lemma only_classes_activate env sec b : only_classes b (activate env sec b).
Proof.
  unfold activate. destruct (qs b _).
  - eapply only_classes_trans;
      [apply only_classes_remove_active | apply only_classes_update].
  - apply only_classes_remove_active.
Qed.

Lemma only_classes_same_layout b b' : only_classes b b' → same_layout b b'.
Proof.
  intros (_ & _ & _ & _ & _ & H) h.
  by destruct (H h) as (_ & ? & _ & _ & _ & ? & ?).
Qed.

Lemma matches_compound_classless c e e' :
  sel_class c = None → tagName e' = tagName e → attrs e' = attrs e →
  matches_compound c e' = matches_compound c e.
Proof. intros Hc Ht Ha. unfold matches_compound. by rewrite Hc, Ht, Ha. Qed.

Lemma matches_ancestors_ext look look' (P : compound → Prop) :
  (∀ c h, P c → matches_compound c (look' h) = matches_compound c (look h)) →
  ∀ ancs cs, Forall P cs →
    matches_ancestors look' cs ancs = matches_ancestors look cs ancs.
Proof.
  intros Hext. induction ancs as [|a ancs IH]; intros [|c cs] Hcs; simpl; try done.
  pose proof (Forall_inv Hcs) as Hc. pose proof (Forall_inv_tail Hcs) as Hcs'.
  by rewrite (Hext c a Hc), (IH cs Hcs'), (IH (c :: cs) Hcs).
Qed.

Lemma qsa_ext b b' sel :
  doc b' = doc b →
  (∀ c h, c ∈ sel →
     matches_compound c (heap b' h) = matches_compound c (heap b h)) →
  qsa b' sel = qsa b sel.
Proof.
  intros Hdoc Hext. unfold qsa. rewrite Hdoc. f_equal.
  apply list_filter_iff. intros x.
  assert (Forall (λ c, c ∈ sel) (rev sel)) as Hall.
  { apply Forall_forall. intros c Hc.
    by apply list_elem_of_In, in_rev, list_elem_of_In. }
  unfold matches. destruct (rev sel) as [|c cs]; [done|].
  rewrite (Hext c x.1 (Forall_inv Hall)).
  by rewrite (matches_ancestors_ext _ _ (λ c, c ∈ sel) Hext _ _
                (Forall_inv_tail Hall)).
Qed.

(** A selector that tests no class finds the same elements whatever the
    classes are. *)
Lemma qsa_only_classes b b' sel :
  only_classes b b' → classless sel → qsa b' sel = qsa b sel.
Proof.
  intros (Hdoc & _ & _ & _ & _ & Hheap) Hsel. apply qsa_ext; [done|].
  intros c h Hc. destruct (Hheap h) as (Ht & Ha & _).
  apply matches_compound_classless; auto.
Qed.

Lemma classless_nav_link_to v : classless (sel_nav_link_to v).
Proof.
  intros c Hc. unfold sel_nav_link_to in Hc.
  repeat (apply elem_of_cons in Hc as [-> | Hc]; [done|]).
  by apply elem_of_nil in Hc.
Qed.

(** ** Active link, continued *)

Lemma only_classes_highlight_section env pos sec b :
  only_classes b (final (highlight_section env pos sec b)).
Proof.
  unfold highlight_section.
  destruct (qs_nav_link_to _ _) as [e|[l|]]; simpl;
    try apply only_classes_refl;
    destruct (in_range _ _ _); simpl; try apply only_classes_refl.
  - eapply only_classes_trans;
      [apply only_classes_remove_active | apply only_classes_update].
  - apply only_classes_remove_active.
Qed.

Lemma only_classes_highlight_sections env pos secs b :
  only_classes b (final (highlight_sections env pos secs b)).
Proof.
  revert b. induction secs as [|sec secs IH]; intros b; simpl.
  - apply only_classes_refl.
  - pose proof (only_classes_highlight_section env pos sec b) as Hsec.
    destruct (highlight_section env pos sec b) as [b1|e b1]; simpl in *.
    + eapply only_classes_trans; [exact Hsec | apply IH].
    + exact Hsec.
Qed.

(** X9: whether it returns or throws, the scroll highlighter changes
    nothing but the class [active]: the document, the storage, the body
    overflow, the attributes, values and text of every element, and every
    other class stay as they were. *)
Theorem highlight_changes_only_active env b :
  only_classes b (final (onScrollHighlight env b))
  ∧ ∀ h c, c ≠ js "active" →
      contains (final (onScrollHighlight env b)) h c = contains b h c.
Proof.
  split; [apply only_classes_highlight_sections|].
  by destruct (frames_highlight_sections env (scrollY b + 120)
                 (sections env) b) as (_ & _ & H).
Qed.

(** X10: when the scroll position, plus the header offset, lies in no
    section (above the first one, below the last one or in a gap), the
    highlighter changes nothing: the link that was active stays so. *)
Theorem scroll_outside_sections_keeps_highlight env b :
  forallb (λ s, css_plain (section_id b s)) (sections env) = true →
  filter (λ s, in_range (scrollY b + 120) b s = true) (sections env) = [] →
  onScrollHighlight env b = Return b.
Proof. intros Hplain Hnone. by apply highlight_sections_none. Qed.

(** The loop is a fold of [activate] over the sections in range. *)
Lemma highlight_sections_fold env pos (secs : list handle) : ∀ b,
  forallb (λ s, css_plain (section_id b s)) secs = true →
  highlight_sections env pos secs b
  = Return (foldl (λ b' s, activate env s b') b
              (filter (λ s, in_range pos b s = true) secs)).
Proof.
  induction secs as [|s secs IH]; intros b Hplain; [done|].
  simpl in Hplain. apply andb_true_iff in Hplain as [Hs Hplain].
  rewrite filter_cons. simpl. rewrite highlight_section_plain by done.
  case_decide as Hr.
  - rewrite Hr. simpl.
    pose proof (only_classes_same_layout _ _ (only_classes_activate env s b)) as Hl.
    rewrite IH by by rewrite (forallb_same_layout b).
    by rewrite (filter_same_layout pos b).
  - apply not_true_is_false in Hr. rewrite Hr. simpl. by apply IH.
Qed.

Lemma only_classes_foldl_activate env secs : ∀ b,
  only_classes b (foldl (λ b' s, activate env s b') b secs).
Proof.
  induction secs as [|s secs IH]; intros b; simpl; [apply only_classes_refl|].
  eapply only_classes_trans; [apply only_classes_activate | apply IH].
Qed.

(** X11: when several sections contain the scroll position (nested or
    overlapping sections), the last of them in document order wins: after
    the highlighter has run, the only nav link with the class [active] is
    the first nav link of the document whose [href] is [#] followed by the
    id of that section. *)
Theorem scroll_last_section_wins env b pre last :
  forallb (λ s, css_plain (section_id b s)) (sections env) = true →
  filter (λ s, in_range (scrollY b + 120) b s = true) (sections env)
  = pre ++ [last] →
  let link :=
    head (filter (λ l, getAttribute b l (js "href")
                       = Some (js "#" ++ section_id b last))
            (qsa b sel_nav_links)) in
  ∃ b', onScrollHighlight env b = Return b'
    ∧ (∀ l, link = Some l → contains b' l (js "active") = true)
    ∧ (∀ l, l ∈ navLinks env →
         (contains b' l (js "active") = true ↔ link = Some l)).
Proof.
  intros Hplain Hlast link. unfold onScrollHighlight.
  rewrite highlight_sections_fold, Hlast, foldl_app by done. simpl.
  set (bm := foldl (λ b' s, activate env s b') b pre).
  pose proof (only_classes_foldl_activate env pre b) as Hbm. fold bm in Hbm.
  eexists. split; [done|].
  assert (qs bm (sel_nav_link_to (js "#" ++ section_id bm last)) = link) as Hlink.
  { rewrite (same_layout_section_id b bm) by by apply only_classes_same_layout.
    unfold qs. rewrite (qsa_only_classes b bm) by
      (done || apply classless_nav_link_to).
    apply qs_nav_link_to_first. }
  unfold activate. rewrite Hlink. destruct link as [l0|].
  - split.
    + intros l [= ->]. rewrite contains_classList_add. by left.
    + intros l Hl. rewrite contains_classList_add, contains_remove_active.
      split; [|intros [= ->]; by left].
      intros [[-> _] | [Hno _]]; [done|]. by destruct Hno.
  - split; [done|]. intros l Hl. rewrite contains_remove_active.
    split; [|done]. intros [Hno _]. by destruct Hno.
Qed.

(** ** Theme, continued *)

Lemma documentElement_load page :
  documentElement (load page).2 = root (load page).1.
Proof.
  unfold load, applyTheme. simpl.
  case_decide; destruct (qs page [by_id "theme-toggle"]); done.
Qed.

Lemma aria_pressed_applyTheme env t theme b :
  themeToggle env = Some t →
  getAttribute (applyTheme env theme b) t (js "aria-pressed")
  = Some (bool_string
            (contains (applyTheme env theme b) (root env) (js "dark-theme"))).
Proof.
  intros Ht.
  assert (contains (applyTheme env theme b) (root env) (js "dark-theme")
          = bool_decide (theme = js "dark")) as ->.
  { apply bool_eq_iff. by rewrite contains_applyTheme, bool_decide_eq_true. }
  unfold applyTheme. rewrite Ht. case_decide.
  - by rewrite getAttribute_setAttribute, bool_decide_true.
  - by rewrite getAttribute_setAttribute, bool_decide_false.
Qed.

(** X12: when the theme button exists, its [aria-pressed] attribute follows
    the theme: after the script has loaded, and after every click on the
    button, it is ['true'] if the root has the class [dark-theme] and
    ['false'] otherwise. *)
Theorem aria_pressed_follows_theme page b t :
  themeToggle (bindings page) = Some t →
  getAttribute (load page).2 t (js "aria-pressed")
  = Some (bool_string
            (contains (load page).2 (root (bindings page)) (js "dark-theme")))
  ∧ getAttribute (final (themeToggle_click (bindings page) b)) t
      (js "aria-pressed")
    = Some (bool_string
              (contains (final (themeToggle_click (bindings page) b))
                 (root (bindings page)) (js "dark-theme"))).
Proof.
  intros Ht. split.
  - unfold load. cbn [snd]. by apply aria_pressed_applyTheme.
  - unfold themeToggle_click. cbn [final]. rewrite contains_setItem.
    unfold getAttribute, setItem. cbn [heap].
    by apply aria_pressed_applyTheme.
Qed.

Lemma theme_name_dark x : theme_name x = js "dark" ↔ x = true.
Proof. destruct x; simpl; split; intros H; try done; vm_compute in H; congruence. Qed.

(** X13: the theme chosen by a click is the theme of the next visit:
    a page that loads with the storage left by the click gets the class
    [dark-theme] on its root exactly if the root had it after the
    click. *)
Theorem theme_survives_reload env b page :
  storage page = storage (final (themeToggle_click env b)) →
  contains (load page).2 (documentElement (load page).2) (js "dark-theme")
  = contains (final (themeToggle_click env b)) (root env) (js "dark-theme").
Proof.
  intros Hstore. apply bool_eq_iff.
  rewrite documentElement_load. unfold load. cbn [fst snd].
  rewrite contains_applyTheme, saved_dark.
  assert (getItem THEME_KEY page
          = (theme_state env (final (themeToggle_click env b))).2) as ->.
  { unfold theme_state, getItem. cbn [snd]. by rewrite Hstore. }
  rewrite theme_state_click, contains_click. cbn [snd]. split.
  - intros [= H]. by apply theme_name_dark.
  - intros H. f_equal. by apply theme_name_dark.
Qed.

(** X14: loading the script stores nothing and touches nothing but the
    theme: the storage, every class other than [dark-theme], every
    attribute other than [aria-pressed] and every value are as before.
    In particular a first visit leaves the storage empty. *)
Theorem load_changes_only_theme page :
  storage (load page).2 = storage page
  ∧ doc (load page).2 = doc page
  ∧ (∀ h c, c ≠ js "dark-theme" →
       contains (load page).2 h c = contains page h c)
  ∧ (∀ h n, n ≠ js "aria-pressed" →
       getAttribute (load page).2 h n = getAttribute page h n)
  ∧ (∀ h, value (heap (load page).2 h) = value (heap page h)).
Proof.
  unfold load, applyTheme. cbn [snd].
  set (env := bindings page).
  assert (∀ t v b h n, n ≠ js "aria-pressed" →
            getAttribute (setAttribute t (js "aria-pressed") v b) h n
            = getAttribute b h n) as Hattr.
  { intros t v b h n Hn. unfold getAttribute, setAttribute.
    destruct (decide (h = t)) as [->|Hne].
    - rewrite heap_update_eq. simpl. by rewrite lookup_insert_ne.
    - by rewrite heap_update_ne. }
  case_decide; destruct (themeToggle env) as [t|];
    (split; [done|]); (split; [done|]); (split; [|split]);
    try (intros h c Hc; rewrite ?contains_setAttribute; apply bool_eq_iff;
         rewrite ?contains_classList_add, ?contains_classList_remove;
         intuition congruence);
    try (intros h n Hn; rewrite ?Hattr by done;
         unfold getAttribute; simpl; by case_decide);
    try (intros h; simpl; by repeat case_decide).
Qed.

(** ** Contact form: fields and feedback *)

(** X16: after a submission that returns, the feedback element shows one
    outcome only, whatever classes and text it had before: it has the
    class [success] exactly when there is no error and the class [error]
    exactly when there is one, and its text is the success message or the
    errors joined by single spaces. *)
Theorem feedback_shows_one_outcome form b name email message f :
  submitted b name email message →
  qs b [by_id "form-feedback"] = Some f →
  ∃ b', contactForm_submit form b = Return b'
    ∧ (contains b' f (js "success") = true ↔ validate name email message = [])
    ∧ (contains b' f (js "error") = true ↔ validate name email message ≠ [])
    ∧ textContent (heap b' f)
      = match validate name email message with
        | [] => MSG_SUCCESS
        | errors => array_join (js " ") errors
        end.
Proof.
  intros Hsub Hf.
  assert (js "error" ≠ js "success") as Hes by literals.
  destruct (validate name email message) as [|e1 es] eqn:Hval.
  - destruct Hsub as (Hn & He & Hm). unfold contactForm_submit.
    rewrite Hn, He, Hm, Hf, Hval. simpl length. change (0 <? 0)%nat with false.
    cbv iota. eexists. split; [done|].
    rewrite textContent_form_reset, !contains_form_reset.
    rewrite !contains_classList_add, !contains_classList_remove.
    split; [|split].
    + split; [done|]. intros _. by left.
    + split; [|done]. intros [[_ H] | [H _]]; [done|]. by destruct H.
    + simpl. by rewrite !decide_True.
  - exists (error_feedback (e1 :: es) b). split.
    { rewrite <- Hval. apply submit_errors; [done|]. by rewrite Hval. }
    unfold error_feedback. rewrite Hf.
    rewrite !contains_classList_add, !contains_classList_remove.
    split; [|split].
    + split; [|done]. intros [[_ H] | [H _]]; [by symmetry in H|]. by destruct H.
    + split; [done|]. intros _. by left.
    + simpl heap. by rewrite !decide_True.
Qed.

(** ** The lazy-loading pass *)

Lemma hasAttribute_true b h n :
  hasAttribute b h n = true ↔ is_Some (getAttribute b h n).
Proof. unfold hasAttribute, getAttribute. apply bool_decide_eq_true. Qed.

Lemma getAttribute_setAttribute_other h n v b k m :
  (k, m) ≠ (h, n) →
  getAttribute (setAttribute h n v b) k m = getAttribute b k m.
Proof.
  intros Hne. unfold getAttribute, setAttribute.
  destruct (decide (k = h)) as [->|Hk].
  - rewrite heap_update_eq. simpl. apply lookup_insert_ne. congruence.
  - by rewrite heap_update_ne.
Qed.

(** One step of the pass: the image gets [loading="lazy"] unless it has a
    [loading] attribute already. *)
Lemma getAttribute_lazy_image img b k m :
  getAttribute (lazy_image img b) k m
  = if decide ((k, m) = (img, js "loading")) then
      Some (default (js "lazy") (getAttribute b img (js "loading")))
    else getAttribute b k m.
Proof.
  unfold lazy_image.
  destruct (hasAttribute b img (js "loading")) eqn:Hhas.
  - apply hasAttribute_true in Hhas as [v Hv].
    case_decide as Hd; [|done]. injection Hd as -> ->. by rewrite Hv.
  - assert (getAttribute b img (js "loading") = None) as Hnone.
    { apply eq_None_not_Some. intros H%hasAttribute_true. congruence. }
    case_decide as Hd.
    + injection Hd as -> ->. by rewrite getAttribute_setAttribute, Hnone.
    + by apply getAttribute_setAttribute_other.
Qed.

Lemma getAttribute_lazy_images (imgs : list handle) : ∀ b k m,
  getAttribute (foldl (λ b' img, lazy_image img b') b imgs) k m
  = if decide (k ∈ imgs ∧ m = js "loading") then
      Some (default (js "lazy") (getAttribute b k (js "loading")))
    else getAttribute b k m.
Proof.
  induction imgs as [|img imgs IH]; intros b k m; cbn [foldl].
  - rewrite decide_False; [done|]. by intros [?%not_elem_of_nil _].
  - rewrite IH, !getAttribute_lazy_image.
    repeat case_decide; simplify_eq/=; try done; exfalso; set_solver.
Qed.

Lemma lazy_image_keeps img b :
  doc (lazy_image img b) = doc b
  ∧ ∀ h, tagName (heap (lazy_image img b) h) = tagName (heap b h)
         ∧ classList (heap (lazy_image img b) h) = classList (heap b h)
         ∧ value (heap (lazy_image img b) h) = value (heap b h).
Proof.
  unfold lazy_image. destruct (hasAttribute b img (js "loading")); [done|].
  split; [done|]. intros h. simpl. by case_decide.
Qed.

Lemma lazy_images_keep (imgs : list handle) : ∀ b,
  doc (foldl (λ b' img, lazy_image img b') b imgs) = doc b
  ∧ ∀ h, tagName (heap (foldl (λ b' img, lazy_image img b') b imgs) h)
         = tagName (heap b h)
         ∧ classList (heap (foldl (λ b' img, lazy_image img b') b imgs) h)
           = classList (heap b h)
         ∧ value (heap (foldl (λ b' img, lazy_image img b') b imgs) h)
           = value (heap b h).
Proof.
  induction imgs as [|img imgs IH]; intros b; simpl; [done|].
  destruct (IH (lazy_image img b)) as [Hdoc Hh].
  destruct (lazy_image_keeps img b) as [Hdoc1 Hh1].
  split; [congruence|]. intros h.
  destruct (Hh h) as (? & ? & ?), (Hh1 h) as (? & ? & ?).
  repeat split; congruence.
Qed.

(** X17: after the lazy-loading pass every image of the document has a
    [loading] attribute: an image that had one keeps its value, the others
    get ['lazy'].  No other attribute of any element changes, and neither
    do classes and values. *)
Theorem lazy_pass_marks_images b :
  ∃ b', document_DOMContentLoaded b = Return b'
    ∧ (∀ img, img ∈ qsa b [by_tag "img"] →
         getAttribute b' img (js "loading")
         = Some (default (js "lazy") (getAttribute b img (js "loading"))))
    ∧ (∀ h n, ¬ (h ∈ qsa b [by_tag "img"] ∧ n = js "loading") →
         getAttribute b' h n = getAttribute b h n)
    ∧ (∀ h, classList (heap b' h) = classList (heap b h)
            ∧ value (heap b' h) = value (heap b h)).
Proof.
  eexists. split; [done|]. split; [|split].
  - intros img Himg. rewrite getAttribute_lazy_images. by rewrite decide_True.
  - intros h n Hno. rewrite getAttribute_lazy_images. by rewrite decide_False.
  - intros h. by destruct (lazy_images_keep (qsa b [by_tag "img"]) b)
      as [_ Hh]; destruct (Hh h) as (_ & ? & ?).
Qed.

Lemma lazy_images_noop (imgs : list handle) : ∀ b,
  (∀ img, img ∈ imgs → hasAttribute b img (js "loading") = true) →
  foldl (λ b' img, lazy_image img b') b imgs = b.
Proof.
  induction imgs as [|img imgs IH]; intros b Hall; simpl; [done|].
  assert (lazy_image img b = b) as ->.
  { unfold lazy_image. rewrite Hall; [done | left]. }
  apply IH. intros i Hi. apply Hall. by right.
Qed.

(** X18: the lazy-loading pass is idempotent: run on its own result, it
    changes nothing. *)
Theorem lazy_pass_idempotent b :
  document_DOMContentLoaded (final (document_DOMContentLoaded b))
  = Return (final (document_DOMContentLoaded b)).
Proof.
  unfold document_DOMContentLoaded at 1. f_equal.
  cbn [document_DOMContentLoaded final].
  set (b1 := foldl (λ b' img, lazy_image img b') b (qsa b [by_tag "img"])).
  destruct (lazy_images_keep (qsa b [by_tag "img"]) b) as [Hdoc Hh]. fold b1 in Hdoc, Hh.
  assert (qsa b1 [by_tag "img"] = qsa b [by_tag "img"]) as Hq.
  { apply qsa_ext; [done|]. intros c h ->%list_elem_of_singleton.
    unfold matches_compound. simpl. by destruct (Hh h) as (-> & _). }
  rewrite Hq. apply lazy_images_noop. intros img Himg.
  apply hasAttribute_true. unfold b1.
  rewrite getAttribute_lazy_images, decide_True by done. by eexists.
Qed.

(** ** Contact form: reset and alerts *)


Lemma filter_flat_map {A B} (P : B → Prop) `{!∀ x, Decision (P x)}
    (f : A → list B) (l : list A) :
  filter P (flat_map f l) = flat_map (λ x, filter P (f x)) l.
Proof.
  induction l as [|x l IH]; [done|]. simpl. by rewrite filter_app, IH.
Qed.

Lemma flat_map_ext_elem {A B} (f g : A → list B) (l : list A) :
  (∀ x, x ∈ l → f x = g x) → flat_map f l = flat_map g l.
Proof.
  induction l as [|x l IH]; intros Hall; [done|]. simpl.
  rewrite (Hall x) by left. rewrite IH; [done|].
  intros y Hy. apply Hall. by right.
Qed.

Lemma filter_none {A} (P : A → Prop) `{!∀ x, Decision (P x)} (l : list A) :
  (∀ x, x ∈ l → ¬ P x) → filter P l = [].
Proof.
  induction l as [|x l IH]; intros Hall; [done|].
  rewrite filter_cons_False by (apply Hall; left). apply IH.
  intros y Hy. apply Hall. by right.
Qed.

(** Writing the text of [f] removes from the document exactly the elements
    inside [f], and keeps the order of the others. *)
Lemma walk_prune_filter f t : ∀ ancs,
  f ∉ ancs →
  walk ancs (prune f t) = filter (λ x, f ∉ x.2) (walk ancs t).
Proof.
  induction t as [k kids IH] using tree_ind'. intros ancs Hf.
  rewrite Forall_forall in IH. cbn [prune]. case_decide as Hk.
  - subst k. cbn [walk flat_map]. rewrite filter_cons_True by done. f_equal.
    symmetry. apply filter_none. intros [h a] Hin.
    apply elem_of_flat_map in Hin as (kid & _ & Hin).
    destruct (walk_suffix _ _ _ _ Hin) as [pre ->]. simpl.
    intros Hno. apply Hno. rewrite elem_of_app, elem_of_cons. tauto.
  - cbn [walk]. rewrite filter_cons_True by done. f_equal.
    rewrite filter_flat_map, flat_map_concat_map, map_map, <- flat_map_concat_map.
    apply flat_map_ext_elem. intros kid Hkid. apply IH; [done|].
    rewrite not_elem_of_cons. split; [congruence | done].
Qed.

Lemma head_filter_keep {A} (P : A → Prop) `{!∀ x, Decision (P x)} (l : list A) x :
  head l = Some x → P x → head (filter P l) = Some x.
Proof.
  destruct l as [|y l]; [done|]. intros [= ->] HP.
  by rewrite filter_cons_True.
Qed.

(** An element that a selector finds first is still found first after the
    text of [f] is written, if it is not inside [f]. *)
Lemma qs_after_prune b b' f sel g :
  doc b' = prune f (doc b) →
  (∀ c h, c ∈ sel →
     matches_compound c (heap b' h) = matches_compound c (heap b h)) →
  qs b sel = Some g → g ∉ descendants f (doc b) →
  qs b' sel = Some g.
Proof.
  intros Hdoc Hext Hq Hg.
  pose (mid := mkBrowser (doc b) (heap b') (storage b) (scrollY b)
                 (bodyOverflow b) (calls b)).
  assert (qsa mid sel = qsa b sel) as Hmid by by apply qsa_ext.
  unfold qs, qsa in *. rewrite Hdoc, walk_prune_filter by apply not_elem_of_nil.
  change (filter (λ x, matches (heap b') sel x = true) (walk [] (doc b)))
    with (filter (λ x, matches (heap mid) sel x = true) (walk [] (doc mid))) in Hmid.
  rewrite list_filter_filter.
  rewrite (list_filter_iff _ (λ x, (f ∉ x.2) ∧ matches (heap b') sel x = true))
    by (intros; tauto).
  rewrite <- list_filter_filter.
  change (heap b') with (heap mid). change (doc b) with (doc mid) at 1.
  destruct (filter (λ x, matches (heap mid) sel x = true) (walk [] (doc mid)))
    as [|[g0 a0] rest] eqn:Hl.
  { rewrite <- Hmid in Hq. done. }
  rewrite <- Hmid in Hq. simpl in Hq. injection Hq as ->.
  rewrite filter_cons_True; [done|]. simpl. intros Hf. apply Hg.
  apply elem_of_descendants. exists a0. split; [|done].
  assert ((g, a0) ∈ filter (λ x, matches (heap mid) sel x = true)
                      (walk [] (doc mid))) as Hin by (rewrite Hl; left).
  by apply list_elem_of_filter in Hin as [_ Hin].
Qed.



(** A control that the form owns is still one after the text of the
    feedback element [f] is written, if neither it nor the form is inside
    [f]. *)
Lemma controls_after_feedback b b' f form h :
  doc b' = prune f (doc b) →
  (∀ k, tagName (heap b' k) = tagName (heap b k)
        ∧ attrs (heap b' k) = attrs (heap b k)) →
  form ∉ descendants f (doc b) →
  h ∈ controls b form → h ∉ descendants f (doc b) →
  h ∈ controls b' form.
Proof.
  intros Hdoc Hheap Hform Hh Hout. unfold controls in *.
  apply list_elem_of_fmap in Hh as ([h0 a] & -> & Hin).
  apply list_elem_of_filter in Hin as [[Hown Hres] Hin]. simpl in *.
  apply list_elem_of_fmap. exists (h0, a). split; [done|].
  apply list_elem_of_filter. split.
  - split.
    + rewrite <- Hown. unfold form_owner, getAttribute, is_form. simpl.
      destruct (Hheap h0) as [_ ->].
      destruct (attrs (heap b h0) !! js "form") as [id|] eqn:Hid.
      * unfold form_owner, getAttribute in Hown. simpl in Hown. rewrite Hid in Hown.
        destruct (qs b [mkCompound None (Some id) None None]) as [g|] eqn:Hq;
          [|done].
        destruct (truthy id && is_form b g) eqn:Hg; [|done].
        injection Hown as ->.
        rewrite (qs_after_prune b b' f _ form Hdoc); [| |done|done].
        -- destruct (Hheap form) as [-> _]. fold (is_form b form). by rewrite Hg.
        -- intros c k ->%list_elem_of_singleton. destruct (Hheap k) as [Ht Ha].
           by apply matches_compound_classless.
      * f_equal. apply list_filter_iff. intros k. by destruct (Hheap k) as [-> _].
    + unfold resettable. simpl. by destruct (Hheap h0) as [-> _].
  - rewrite Hdoc. apply walk_prune; [done|]. intros Hf. apply Hout.
    apply elem_of_descendants. by exists a.
Qed.

(** After a reset every control that the form owns has its default
    value. *)
Lemma value_form_reset form b h v :
  h ∈ controls b form → value (heap b h) = Some v →
  value (heap (form_reset form b) h) = Some (defaultValue (heap b h)).
Proof.
  intros Hin Hv. simpl. rewrite decide_True by done.
  unfold reset_control. by rewrite Hv.
Qed.

(** C9, as amended: when all three trimmed fields pass validation, the
    feedback element gets the success message and the class [success],
    without the class [error], and the form is reset: each of the three
    fields returns to its default value, which is the empty string unless
    the markup presets one.  The fields are controls that the form owns,
    and neither they nor the form are inside the feedback element. *)
Theorem submit_success form b name email message f :
  submitted b name email message →
  name ≠ [] →
  Regex.test emailRegex email = true →
  message ≠ [] →
  qs b [by_id "form-feedback"] = Some f →
  form ∉ descendants f (doc b) →
  form_field form f b [by_id "name"] →
  form_field form f b [by_id "email"] →
  form_field form f b [by_id "message"] →
  ∃ b', contactForm_submit form b = Return b'
    ∧ textContent (heap b' f) = MSG_SUCCESS
    ∧ contains b' f (js "success") = true
    ∧ contains b' f (js "error") = false
    ∧ calls b' = calls b ++ [Reset form]
    ∧ ∀ sel, sel ∈ [[by_id "name"]; [by_id "email"]; [by_id "message"]] →
        ∃ h, qs b sel = Some h
          ∧ value (heap b' h) = Some (defaultValue (heap b h)).
Proof.
  intros (Hn & He & Hm) Hname Hemail Hmsg Hf Hform Bn Be Bm.
  unfold contactForm_submit. rewrite Hn, He, Hm, Hf.
  rewrite (validate_passes _ _ _ Hname Hemail Hmsg). simpl length. cbv iota.
  change (0 <? 0)%nat with false. cbv iota.
  eexists. split; [done|].
  rewrite textContent_form_reset, !contains_form_reset.
  split; [|split; [|split; [|split]]].
  - simpl. by rewrite !decide_True.
  - rewrite contains_classList_add. by left.
  - apply not_true_is_false. rewrite contains_classList_add.
    intros [[_ H]|H]; [by vm_compute in H|].
    rewrite contains_classList_remove in H. tauto.
  - done.
  - set (b1 := classList_add f (js "success")
                 (classList_remove f (js "error")
                    (set_textContent f MSG_SUCCESS b))).
    assert (∀ sel v, form_field form f b sel → trimmed_value b sel = Some v →
      ∃ h, qs b sel = Some h
        ∧ value (heap (form_reset form b1) h) = Some (defaultValue (heap b h)))
      as Hfield.
    { intros sel v (h & Hq & Hin & Hout) Hv. exists h. split; [done|].
      unfold trimmed_value in Hv. rewrite Hq in Hv.
      destruct (value (heap b h)) as [raw|] eqn:Hraw; [|done].
      rewrite (value_form_reset _ _ _ raw).
      - f_equal. unfold b1. simpl. by repeat case_decide.
      - apply (controls_after_feedback b b1 f); try done.
        intros k. unfold b1. simpl. by repeat case_decide.
      - unfold b1, classList_add, classList_remove.
        by rewrite !value_update_classList, value_set_textContent. }
    intros sel Hsel. rewrite !elem_of_cons in Hsel.
    destruct Hsel as [-> | [-> | [-> | Hnil]]]; [by eapply Hfield..|].
    by apply not_elem_of_nil in Hnil.
Qed.

(** Three valid fields on the sample page. *)
Lemma submit_success_witness :
  let b := typed " Ann " "ann@example.org" "Hello" (load portfolio).2 in
  submitted b (js "Ann") (js "ann@example.org") (js "Hello")
  ∧ form_field 11%nat 15%nat b [by_id "name"]
  ∧ ∃ b', contactForm_submit 11%nat b = Return b'
      ∧ textContent (heap b' 15%nat) = MSG_SUCCESS
      ∧ contains b' 15%nat (js "success") = true
      ∧ contains b' 15%nat (js "error") = false
      ∧ calls b' = calls b ++ [Reset 11%nat]
      ∧ ∀ sel, sel ∈ [[by_id "name"]; [by_id "email"]; [by_id "message"]] →
          ∃ h, qs b sel = Some h
            ∧ value (heap b' h) = Some (defaultValue (heap b h)).
Proof.
  assert (submitted (typed " Ann " "ann@example.org" "Hello" (load portfolio).2)
            (js "Ann") (js "ann@example.org") (js "Hello")) as Hsub.
  { repeat split; vm_compute; reflexivity. }
  assert (∀ sel h,
            qs (typed " Ann " "ann@example.org" "Hello" (load portfolio).2) sel
            = Some h →
            bool_decide (h ∈ [12; 13; 14]%nat) = true →
            form_field 11%nat 15%nat
              (typed " Ann " "ann@example.org" "Hello" (load portfolio).2) sel)
    as Hfield.
  { intros sel h Hq Hh. exists h. split; [exact Hq|].
    apply bool_decide_eq_true_1 in Hh.
    rewrite !elem_of_cons in Hh.
    destruct Hh as [-> | [-> | [-> | Hnil]]];
      [| | | by apply not_elem_of_nil in Hnil];
      (split; evaluated). }
  split; [exact Hsub|].
  split; [apply (Hfield _ 12%nat); vm_compute; reflexivity|].
  apply (submit_success 11%nat _ _ _ _ 15%nat Hsub).
  - vm_compute; discriminate.
  - vm_compute; reflexivity.
  - vm_compute; discriminate.
  - vm_compute; reflexivity.
  - evaluated.
  - apply (Hfield _ 12%nat); vm_compute; reflexivity.
  - apply (Hfield _ 13%nat); vm_compute; reflexivity.
  - apply (Hfield _ 14%nat); vm_compute; reflexivity.
Defined.

(** C9, as stated, fails on the page whose markup fills in the name field:
    after a passing submission the field holds its preset text again, not
    the empty string. *)
Lemma submit_success_keeps_preset :
  let b := typed "Ann" "ann@example.org" "Hello" prefilled in
  submitted b (js "Ann") (js "ann@example.org") (js "Hello")
  ∧ validate (js "Ann") (js "ann@example.org") (js "Hello") = []
  ∧ throws (contactForm_submit 11%nat b) = false
  ∧ qs b [by_id "name"] = Some 12%nat
  ∧ value (heap (final (contactForm_submit 11%nat b)) 12%nat)
    = Some (js "Your name")
  ∧ value (heap (final (contactForm_submit 11%nat b)) 12%nat) ≠ Some [].
Proof. vm_compute. repeat split; congruence. Qed.



(** X20: [alert] and [console.warn] are a fallback only: when the feedback
    element exists, a submission that returns makes no such call; the only
    call is the reset of the form, on success. *)
Theorem submit_with_feedback_is_silent form b name email message f :
  submitted b name email message →
  qs b [by_id "form-feedback"] = Some f →
  ∃ b', contactForm_submit form b = Return b'
    ∧ calls b' = calls b ++ match validate name email message with
                            | [] => [Reset form]
                            | _ => []
                            end.
Proof.
  intros (Hn & He & Hm) Hf. unfold contactForm_submit.
  rewrite Hn, He, Hm, Hf.
  destruct (validate name email message) as [|e1 es]; simpl;
    eexists; (split; [done|]); simpl; by rewrite ?app_nil_r.
Qed.

(** ** The further properties on the sample pages *)

(** A name of two spaces reads as empty. *)
Lemma blank_field_reads_empty_witness :
  let b := typed "  " "ann@example.org" "Hello" portfolio in
  qs b [by_id "name"] = Some 12%nat
  ∧ value (heap b 12%nat) = Some (js "  ")
  ∧ (trimmed_value b [by_id "name"] = Some [] ↔ all_space (js "  ") = true).
Proof.
  split; [vm_compute; reflexivity|]. split; [vm_compute; reflexivity|].
  apply (blank_field_reads_empty
           (typed "  " "ann@example.org" "Hello" portfolio)
           [by_id "name"] 12%nat (js "  ")); vm_compute; reflexivity.
Defined.

(** An address with a space before it and a line break after it. *)
Lemma padded_email_passes_witness :
  email_shape (js "a@b.c")
  ∧ trim (js " " ++ js "a@b.c" ++ NEWLINE) = js "a@b.c"
  ∧ MSG_EMAIL ∉ validate (js "Ann") (trim (js " " ++ js "a@b.c" ++ NEWLINE)) (js "Hi").
Proof.
  assert (email_shape (js "a@b.c")) as Hshape.
  { apply emailRegex_shape. vm_compute; reflexivity. }
  split; [exact Hshape|].
  apply (padded_email_passes (js " ") NEWLINE (js "a@b.c") (js "Ann") (js "Hi") Hshape);
    vm_compute; reflexivity.
Defined.

(** The toggle of the sample page, with the nav closed. *)
Lemma nav_toggle_click_flips_witness :
  let env := bindings portfolio in
  navUL env = Some 3%nat
  ∧ ∃ b', navToggle_click env 8%nat portfolio = Return b'
      ∧ contains b' 3%nat (js "open") = negb (contains portfolio 3%nat (js "open"))
      ∧ getAttribute b' 8%nat (js "aria-expanded")
        = Some (bool_string (contains b' 3%nat (js "open")))
      ∧ ∀ h c, (h, c) ≠ (3%nat, js "open") →
          contains b' h c = contains portfolio h c.
Proof.
  split; [vm_compute; reflexivity|].
  apply (nav_toggle_click_flips (bindings portfolio) 8%nat 3%nat portfolio).
  vm_compute; reflexivity.
Defined.

(** The first nav link of the sample page, with the nav open. *)
Lemma nav_link_click_closes_witness :
  let b := classList_add 3%nat (js "open") portfolio in
  contains b 3%nat (js "open") = true
  ∧ ∃ ul, navUL (bindings portfolio) = Some ul
      ∧ (fire (bindings portfolio) (NavLinkClick 5%nat) b).2 = []
      ∧ contains (fire (bindings portfolio) (NavLinkClick 5%nat) b).1 ul (js "open")
        = false
      ∧ ∀ h c, (h, c) ≠ (ul, js "open") →
          contains (fire (bindings portfolio) (NavLinkClick 5%nat) b).1 h c
          = contains b h c.
Proof.
  split; [vm_compute; reflexivity|].
  apply (nav_link_click_closes portfolio 5%nat
           (classList_add 3%nat (js "open") portfolio)).
  evaluated.
Defined.

(** The close button of the sample page, with the modal open. *)
Lemma modal_close_click_closes_witness :
  let b := classList_add 16%nat (js "open") portfolio in
  contains b 16%nat (js "open") = true
  ∧ ∃ m, modal (bindings portfolio) = Some m
      ∧ (fire (bindings portfolio) ModalCloseClick b).2 = []
      ∧ contains (fire (bindings portfolio) ModalCloseClick b).1 m (js "open") = false
      ∧ bodyOverflow (fire (bindings portfolio) ModalCloseClick b).1 = [].
Proof.
  split; [vm_compute; reflexivity|].
  apply (modal_close_click_closes portfolio
           (classList_add 16%nat (js "open") portfolio)).
  exists 17%nat. vm_compute; reflexivity.
Defined.

(** The open modal of the sample page and the Enter key. *)
Lemma modal_escape_and_backdrop_witness :
  let env := bindings portfolio in
  let b := classList_add 16%nat (js "open") portfolio in
  (fire env (KeyDown (js "Escape")) b).2 = []
  ∧ contains (fire env (KeyDown (js "Escape")) b).1 16%nat (js "open") = false
  ∧ (fire env (ModalClick 16%nat) b).2 = []
  ∧ contains (fire env (ModalClick 16%nat) b).1 16%nat (js "open") = false
  ∧ fire env (KeyDown (js "Enter")) b = (b, []).
Proof.
  apply (modal_escape_and_backdrop (bindings portfolio) 16%nat
           (classList_add 16%nat (js "open") portfolio) (js "Enter")).
  - vm_compute; reflexivity.
  - vm_compute; discriminate.
Defined.

(** Scrolled to 5000 pixels, the sample page is below its last section. *)
Lemma scroll_outside_sections_keeps_highlight_witness :
  let b := scrolled 5000 portfolio in
  filter (λ s, in_range (scrollY b + 120) b s = true)
    (sections (bindings portfolio)) = []
  ∧ onScrollHighlight (bindings portfolio) b = Return b.
Proof.
  split; [vm_compute; reflexivity|].
  apply (scroll_outside_sections_keeps_highlight (bindings portfolio)
           (scrolled 5000 portfolio)); vm_compute; reflexivity.
Defined.

(** Scrolled to 300 pixels, the page with overlapping sections is in both
    of them; the link of the second one is the active one. *)
Lemma scroll_last_section_wins_witness :
  let env := bindings overlapping in
  let b := scrolled 300 overlapping in
  filter (λ s, in_range (scrollY b + 120) b s = true) (sections env)
  = [9%nat] ++ [10%nat]
  ∧ head (filter (λ l, getAttribute b l (js "href")
                       = Some (js "#" ++ section_id b 10%nat))
            (qsa b sel_nav_links)) = Some 7%nat
  ∧ ∃ b', onScrollHighlight env b = Return b'
      ∧ (∀ l, head (filter (λ l, getAttribute b l (js "href")
                                 = Some (js "#" ++ section_id b 10%nat))
                      (qsa b sel_nav_links)) = Some l →
           contains b' l (js "active") = true)
      ∧ (∀ l, l ∈ navLinks env →
           (contains b' l (js "active") = true
            ↔ head (filter (λ l, getAttribute b l (js "href")
                                 = Some (js "#" ++ section_id b 10%nat))
                      (qsa b sel_nav_links)) = Some l)).
Proof.
  split; [vm_compute; reflexivity|]. split; [vm_compute; reflexivity|].
  apply (scroll_last_section_wins (bindings overlapping)
           (scrolled 300 overlapping) [9%nat] 10%nat); vm_compute; reflexivity.
Defined.

(** The theme button of the sample page. *)
Lemma aria_pressed_follows_theme_witness :
  themeToggle (bindings portfolio) = Some 19%nat
  ∧ getAttribute (load portfolio).2 19%nat (js "aria-pressed")
    = Some (bool_string
              (contains (load portfolio).2 (root (bindings portfolio))
                 (js "dark-theme")))
  ∧ getAttribute (final (themeToggle_click (bindings portfolio) portfolio)) 19%nat
      (js "aria-pressed")
    = Some (bool_string
              (contains (final (themeToggle_click (bindings portfolio) portfolio))
                 (root (bindings portfolio)) (js "dark-theme"))).
Proof.
  split; [vm_compute; reflexivity|].
  apply (aria_pressed_follows_theme portfolio portfolio 19%nat).
  vm_compute; reflexivity.
Defined.

(** The sample page after one click, loaded again. *)
Lemma theme_survives_reload_witness :
  let env := bindings portfolio in
  let clicked := final (themeToggle_click env portfolio) in
  getItem THEME_KEY clicked = Some (js "dark")
  ∧ contains (load clicked).2 (documentElement (load clicked).2) (js "dark-theme")
    = contains clicked (root env) (js "dark-theme").
Proof.
  split; [vm_compute; reflexivity|].
  apply (theme_survives_reload (bindings portfolio) portfolio
           (final (themeToggle_click (bindings portfolio) portfolio))).
  reflexivity.
Defined.

(** An empty message on the sample page, after an earlier success. *)
Lemma feedback_shows_one_outcome_witness :
  let b := typed "Ann" "ann@example.org" ""
             (classList_add 15%nat (js "success") portfolio) in
  contains b 15%nat (js "success") = true
  ∧ validate (js "Ann") (js "ann@example.org") [] = [MSG_MESSAGE]
  ∧ ∃ b', contactForm_submit 11%nat b = Return b'
      ∧ (contains b' 15%nat (js "success") = true
         ↔ validate (js "Ann") (js "ann@example.org") [] = [])
      ∧ (contains b' 15%nat (js "error") = true
         ↔ validate (js "Ann") (js "ann@example.org") [] ≠ [])
      ∧ textContent (heap b' 15%nat)
        = match validate (js "Ann") (js "ann@example.org") [] with
          | [] => MSG_SUCCESS
          | errors => array_join (js " ") errors
          end.
Proof.
  split; [vm_compute; reflexivity|]. split; [vm_compute; reflexivity|].
  apply (feedback_shows_one_outcome 11%nat
           (typed "Ann" "ann@example.org" ""
              (classList_add 15%nat (js "success") portfolio))
           (js "Ann") (js "ann@example.org") [] 15%nat).
  - repeat split; vm_compute; reflexivity.
  - vm_compute; reflexivity.
Defined.

(** Three valid fields on the sample page. *)
Lemma submit_with_feedback_is_silent_witness :
  let b := typed "Ann" "ann@example.org" "Hello" portfolio in
  ∃ b', contactForm_submit 11%nat b = Return b'
    ∧ calls b' = calls b ++ match validate (js "Ann") (js "ann@example.org")
                                    (js "Hello") with
                            | [] => [Reset 11%nat]
                            | _ => []
                            end.
Proof.
  apply (submit_with_feedback_is_silent 11%nat
           (typed "Ann" "ann@example.org" "Hello" portfolio)
           (js "Ann") (js "ann@example.org") (js "Hello") 15%nat).
  - repeat split; vm_compute; reflexivity.
  - vm_compute; reflexivity.
Defined.

(** ** Section ids that need escaping *)

(** C8, as stated, fails for a section whose id holds a double quote: the
    window is in that section alone and a nav link points to it, but the
    selector built from the id is ill-formed, so the listener throws a
    [SyntaxError] and the link does not become active. *)
Lemma scroll_quoted_id_throws :
  let env := bindings quoted in
  filter (λ s, in_range (scrollY quoted + 120) quoted s = true) (sections env)
  = [9%nat]
  ∧ navLinks env = [5%nat; 7%nat]
  ∧ getAttribute quoted 5%nat (js "href")
    = Some (js "#" ++ section_id quoted 9%nat)
  ∧ onScrollHighlight env quoted = Throw SyntaxError quoted
  ∧ contains (final (onScrollHighlight env quoted)) 5%nat (js "active") = false
  ∧ (fire env WindowScroll quoted).2 = [SyntaxError].
Proof. vm_compute. repeat split; congruence. Qed.

(** ** Form owners *)

(** A reset follows the form owner, not the nesting: the input after the
    form that names it in its [form] attribute is reset with the fields of
    the form, and the input inside the form that names another form is
    not. *)
Example reset_follows_form_owner :
  let b := typed "Ann" "ann@example.org" "Hello" tied in
  let b' := final (contactForm_submit 11%nat b) in
  controls b 11%nat = [12; 13; 14; 20]%nat
  ∧ value (heap b' 12%nat) = Some []
  ∧ value (heap b' 20%nat) = Some []
  ∧ value (heap b' 21%nat) = Some (js "kept").
Proof. by vm_compute. Qed.
